(** * Media Organizer MVP: the scan and dedup-insert pipeline of [main.go]

    A shallow embedding of the handlers [scanDirectory], [getMediaItems] and
    [getStats], of the table created by [initDB] and of the classification
    table [supportedExtensions], followed by the properties of the catalog
    that the specification states.

    Go strings are byte sequences: they are modelled by [string], whose
    characters are the 256 values of [ascii].  Go's [int] and [int64] are
    modelled by [Z]; no quantity of the program comes near their bounds
    (counts of rows, sizes reported by the file system). *)

From Stdlib Require Import String Ascii List ZArith Bool Lia Arith.
From Stdlib Require Import Sorting.Sorted Sorting.Permutation.
From Stdlib Require Import DecimalString.
Import ListNotations.
Local Open Scope string_scope.

(** ** Strings: [filepath.Ext] and [strings.ToLower] *)

Module GoStrings.

(** [os.IsPathSeparator] on Unix: the only separator is the slash. *)
Definition IsPathSeparator (c : ascii) : bool := Ascii.eqb c "/"%char.

(** The loop of [filepath.Ext]:
    [for i := len(path)-1; i >= 0 && !IsPathSeparator(path[i]); i--]
    with [n = i + 1]; it returns [path[i:]] at the first dot met. *)
Fixpoint Ext_loop (path : string) (n : nat) : string :=
  match n with
  | O => ""
  | S i =>
      match String.get i path with
      | None => ""
      | Some c =>
          if IsPathSeparator c then ""
          else if Ascii.eqb c "."%char
               then String.substring i (String.length path - i) path
               else Ext_loop path i
      end
  end.

Definition Ext (path : string) : string :=
  Ext_loop path (String.length path).

(** [c >= utf8.RuneSelf] fails, that is [c] is a 7-bit byte. *)
Definition isASCIIByte (c : ascii) : bool := (nat_of_ascii c <? 128)%nat.

Definition isUpperByte (c : ascii) : bool :=
  ((65 <=? nat_of_ascii c) && (nat_of_ascii c <=? 90))%nat.

(** [c += 'a' - 'A'] on the bytes ['A'..'Z']. *)
Definition lowerByte (c : ascii) : ascii :=
  if isUpperByte c then ascii_of_nat (nat_of_ascii c + 32) else c.

Fixpoint isASCII (s : string) : bool :=
  match s with
  | EmptyString => true
  | String c r => isASCIIByte c && isASCII r
  end.

Fixpoint hasUpper (s : string) : bool :=
  match s with
  | EmptyString => false
  | String c r => isUpperByte c || hasUpper r
  end.

Fixpoint mapBytes (f : ascii -> ascii) (s : string) : string :=
  match s with
  | EmptyString => EmptyString
  | String c r => String (f c) (mapBytes f r)
  end.

Section ToLower.
(** [strings.Map(unicode.ToLower, s)], which [strings.ToLower] falls back
    to when [s] holds a byte outside ASCII.  It depends on the Unicode
    tables of the Go runtime and is left as a parameter. *)
Variable unicodeLower : string -> string.

(** [strings.ToLower]: the ASCII-only fast path is spelled out. *)
Definition ToLower (s : string) : string :=
  if isASCII s
  then (if hasUpper s then mapBytes lowerByte s else s)
  else unicodeLower s.
End ToLower.

End GoStrings.
Import GoStrings.

(** ** The classification table *)

(** [var supportedExtensions = map[string]string{...}].  The keys are
    distinct, so the association list read from the front is the map. *)
Definition supportedExtensions_table : list (string * string) :=
  [ (".mp4",  "video");
    (".avi",  "video");
    (".mkv",  "video");
    (".mov",  "video");
    (".wmv",  "video");
    (".flv",  "video");
    (".webm", "video");
    (".jpg",  "image");
    (".jpeg", "image");
    (".png",  "image");
    (".gif",  "image");
    (".webp", "image") ].

Fixpoint lookup (tbl : list (string * string)) (k : string) : option string :=
  match tbl with
  | [] => None
  | (k', v) :: rest => if String.eqb k' k then Some v else lookup rest k
  end.

(** [mediaType, ok := supportedExtensions[ext]] *)
Definition supportedExtensions (ext : string) : option string :=
  lookup supportedExtensions_table ext.

(** The two lines of [scanDirectory] that classify a walked path:
    [ext := strings.ToLower(filepath.Ext(path))] and the table lookup. *)
Definition classify (unicodeLower : string -> string) (path : string)
  : option string :=
  supportedExtensions (ToLower unicodeLower (Ext path)).

(** ** The [media] table *)

(** [type MediaItem struct].  [CreatedAt] is the [created_at] column, a
    timestamp in whole seconds ([CURRENT_TIMESTAMP]); the field [Type] of
    the source is [Type_] here, [Type] being reserved. *)
Record MediaItem : Type := mkMediaItem {
  ID        : Z;
  Path      : string;
  Filename  : string;
  Size      : Z;
  Type_     : string;
  CreatedAt : Z
}.

(** The table [media] of the schema in [initDB]: its rows in rowid order,
    oldest first, and the counter that [AUTOINCREMENT] keeps in
    [sqlite_sequence] (the largest id handed out so far). *)
Record Table : Type := mkTable {
  rows : list MediaItem;
  seq  : Z
}.

Definition empty_table : Table := {| rows := []; seq := 0 |}.

Inductive dberror : Type :=
| ConstraintViolation   (* UNIQUE constraint failed: media.path *)
| StorageFailure.       (* the statement could not be run: I/O error, locked file *)

Module SQL.

(** [WHERE path = ?]: TEXT compared with the BINARY collation. *)
Definition where_path (path : string) (r : MediaItem) : bool :=
  String.eqb (Path r) path.

(** [WHERE type = ?] *)
Definition where_type (ty : string) (r : MediaItem) : bool :=
  String.eqb (Type_ r) ty.

(** [SELECT COUNT( * ) FROM media] *)
Definition count_all (t : Table) : Z := Z.of_nat (length (rows t)).

(** [SELECT COUNT( * ) FROM media WHERE path = ?] *)
Definition count_path (path : string) (t : Table) : Z :=
  Z.of_nat (length (filter (where_path path) (rows t))).

(** [SELECT COUNT( * ) FROM media WHERE type = ...] *)
Definition count_type (ty : string) (t : Table) : Z :=
  Z.of_nat (length (filter (where_type ty) (rows t))).

(** [ORDER BY created_at DESC]: an insertion sort that keeps rows of equal
    [created_at] in rowid order.  SQL leaves the order of such rows open;
    the theorems below use only that the result is a permutation of its
    input sorted newest first. *)
Fixpoint insert_desc (x : MediaItem) (l : list MediaItem) : list MediaItem :=
  match l with
  | [] => [x]
  | y :: l' =>
      if (CreatedAt y <=? CreatedAt x)%Z then x :: y :: l'
      else y :: insert_desc x l'
  end.

Fixpoint order_by_created_at_desc (l : list MediaItem) : list MediaItem :=
  match l with
  | [] => []
  | x :: l' => insert_desc x (order_by_created_at_desc l')
  end.

(** [SELECT * FROM media ORDER BY created_at DESC] *)
Definition select_all (t : Table) : list MediaItem :=
  order_by_created_at_desc (rows t).

(** [SELECT * FROM media WHERE type = ? ORDER BY created_at DESC] *)
Definition select_type (ty : string) (t : Table) : list MediaItem :=
  order_by_created_at_desc (filter (where_type ty) (rows t)).

(** [INSERT INTO media (path, filename, size, type) VALUES (:path, ...)]
    run at time [now].  The column [path] is [UNIQUE]: the statement fails
    and leaves the table as it was when a row with that path exists.
    Otherwise [id] is taken from the [AUTOINCREMENT] counter and
    [created_at] defaults to [CURRENT_TIMESTAMP]; the fields [ID] and
    [CreatedAt] of the argument are not bound by the statement. *)
Definition insert (now : Z) (media : MediaItem) (t : Table)
  : dberror + (Z * Table) :=
  if existsb (where_path (Path media)) (rows t)
  then inl ConstraintViolation
  else
    let id := (seq t + 1)%Z in
    let row := {| ID := id; Path := Path media; Filename := Filename media;
                  Size := Size media; Type_ := Type_ media;
                  CreatedAt := now |} in
    inr (id, {| rows := rows t ++ [row]; seq := id |}).

End SQL.

(** [initDB] on the database file [./data/media.db]: [None] when the file
    is new.  [CREATE TABLE IF NOT EXISTS] creates the empty table, and
    leaves a table that is there as it is. *)
Definition initDB (file : option Table) : Table :=
  match file with
  | None => empty_table
  | Some t => t
  end.

(** ** The process: store handle, clock, log *)

(** What the program cannot control: whether the [n]-th statement sent to
    the store can be run at all, and the value of [CURRENT_TIMESTAMP] when
    it runs. *)
Record Env : Type := mkEnv {
  storage_fault     : nat -> bool;
  current_timestamp : nat -> Z
}.

(** No statement from the [n]-th on meets a storage failure. *)
Definition healthy_from (env : Env) (n : nat) : Prop :=
  forall m, (n <= m)%nat -> storage_fault env m = false.

(** The sentinel and the errors that [os.Lstat] and the reading of a
    directory report. *)
Inductive oserror : Type :=
| ErrNotExist
| ErrPermission
| ErrIO.

Inductive error : Type :=
| SkipDir                         (* filepath.SkipDir *)
| PathError (e : oserror).        (* *fs.PathError from the file system *)

Inductive statname : Type := StatTotal | StatVideos | StatImages.

(** One constructor for each call of the logger in the handlers. *)
Inductive LogEntry : Type :=
| LogFetchFailed  (e : dberror)                  (* log.Error("Failed to fetch media items:", err) *)
| LogScanStart    (path : string)                (* log.Infof("Starting scan of directory: %s", ...) *)
| LogInsertFailed (path : string) (e : dberror)  (* log.Warnf("Failed to insert media item %s: %v", ...) *)
| LogScanFailed   (e : error)                    (* log.Error("Failed to scan directory:", err) *)
| LogScanComplete (count : Z)                    (* log.Infof("Scan complete. Added %d new items", count) *)
| LogStatFailed   (which : statname) (e : dberror). (* log.Error("Failed to get ... count:", err) *)

(** The state of the running server: the table behind [app.DB], the number
    of statements sent to it so far, and the log written so far. *)
Record World : Type := mkWorld {
  db   : Table;
  tick : nat;
  logs : list LogEntry
}.

Definition M (A : Type) : Type := World -> A * World.

Definition ret {A : Type} (a : A) : M A := fun w => (a, w).

Definition bind {A B : Type} (m : M A) (k : A -> M B) : M B :=
  fun w => let (a, w') := m w in k a w'.

Declare Scope go_scope.
Delimit Scope go_scope with go.
Notation "x <- m ;; k" := (bind m (fun x => k))
  (at level 100, m at next level, right associativity) : go_scope.
Notation "m ;;; k" := (bind m (fun _ => k))
  (at level 100, right associativity) : go_scope.
Local Open Scope go_scope.

Definition log (e : LogEntry) : M unit :=
  fun w => (tt, {| db := db w; tick := tick w; logs := logs w ++ [e] |}).

Section Store.
Variable env : Env.

(** One statement sent through [app.DB].  It takes the next slot of the
    environment; a storage failure returns the error and changes
    nothing, and so does a statement that the table refuses. *)
Definition statement {A : Type} (q : Z -> Table -> dberror + (A * Table))
  : M (dberror + A) :=
  fun w =>
    let n := tick w in
    if storage_fault env n
    then (inl StorageFailure,
          {| db := db w; tick := S n; logs := logs w |})
    else match q (current_timestamp env n) (db w) with
         | inl e => (inl e, {| db := db w; tick := S n; logs := logs w |})
         | inr (a, t') => (inr a, {| db := t'; tick := S n; logs := logs w |})
         end.

(** A query: a statement that reads. *)
Definition query {A : Type} (q : Table -> A) : M (dberror + A) :=
  statement (fun _ t => inr (q t, t)).

(** [app.DB.Get(&existing, "SELECT COUNT( * ) FROM media WHERE path = ?", path)] *)
Definition Get_count_path (path : string) : M (dberror + Z) :=
  query (SQL.count_path path).

(** [app.DB.NamedExec("INSERT INTO media ...", media)] *)
Definition NamedExec_insert (media : MediaItem) : M (dberror + Z) :=
  statement (fun now t => SQL.insert now media t).
End Store.

(** ** The file system and [filepath.Walk] *)

(** [os.FileInfo], as far as the program reads it. *)
Record FileInfo : Type := mkFileInfo {
  Name  : string;
  Size_ : Z;
  IsDir : bool
}.

(** What a walk can observe below a path whose [Lstat] succeeded: the
    [FileInfo], and for a directory the outcome of reading its names
    (sorted, as [readDirNames] returns them), each with the outcome of
    its own [Lstat].  The listing of an entry that is not a directory is
    never read. *)
#[local] Unset Elimination Schemes.
Inductive node : Type :=
| Node (info : FileInfo)
       (listing : oserror + list (string * (oserror + node))).
#[local] Set Elimination Schemes.

Definition info_of (n : node) : FileInfo :=
  match n with Node info _ => info end.

(** [os.Lstat] on the root of a scan. *)
Definition FileSystem : Type := string -> oserror + node.

Definition is_SkipDir (e : error) : bool :=
  match e with SkipDir => true | _ => false end.

Section Walk.
(** [filepath.Join(path, name)] cleans the joined path; it is a
    parameter of the model. *)
Variable Join : string -> string -> string.

(** The state that the callback reads and writes. *)
Variable S : Type.

(** [filepath.WalkFunc]; [info] is [nil] when [Lstat] failed. *)
Definition WalkFunc : Type :=
  string -> option FileInfo -> option error -> S -> option error * S.

Variable walkFn : WalkFunc.

(** The loop [for _, name := range names] of [filepath.walk], over the
    names with the outcome of [lstat(filename)] for each; [walk'] is the
    recursive call. *)
Fixpoint range (walk' : string -> node -> S -> option error * S)
    (path : string) (names : list (string * (oserror + node))) (s : S)
    {struct names} : option error * S :=
  match names with
  | [] => (None, s)
  | (name, st) :: rest =>
      let filename := Join path name in
      match st with
      | inl e =>
          let (r, s') := walkFn filename None (Some (PathError e)) s in
          match r with
          | None => range walk' path rest s'
          | Some e' =>
              if is_SkipDir e' then range walk' path rest s'
              else (Some e', s')
          end
      | inr child =>
          let (r, s') := walk' filename child s in
          match r with
          | None => range walk' path rest s'
          | Some e' =>
              if negb (IsDir (info_of child)) || negb (is_SkipDir e')
              then (Some e', s')
              else range walk' path rest s'
          end
      end
  end.

(** [filepath.walk] of Go 1.19. *)
Fixpoint walk (path : string) (n : node) (s : S) {struct n}
  : option error * S :=
  match n with
  | Node info listing =>
      if negb (IsDir info) then walkFn path (Some info) None s
      else
        match listing with
        | inl e =>
            (* err != nil: walk returns what the callback returns *)
            walkFn path (Some info) (Some (PathError e)) s
        | inr names =>
            let (err1, s1) := walkFn path (Some info) None s in
            match err1 with
            | Some _ => (err1, s1)
            | None => range walk path names s1
            end
        end
  end.

(** [filepath.Walk] of Go 1.19. *)
Definition Walk (fs : FileSystem) (root : string) (s : S)
  : option error * S :=
  let (err, s') :=
    match fs root with
    | inl e => walkFn root None (Some (PathError e)) s
    | inr n => walk root n s
    end in
  match err with
  | Some SkipDir => (None, s')
  | _ => (err, s')
  end.
End Walk.
Arguments WalkFunc S : clear implicits.
Arguments range Join {S} walkFn walk' path names s.
Arguments walk Join {S} walkFn path n s.
Arguments Walk Join {S} walkFn fs root s.

(** ** The handlers *)

Inductive failure : Type :=
| PathRequired                 (* "Path is required" *)
| ScanError (e : error)        (* err.Error() of the walk *)
| StoreError (e : dberror).    (* err.Error() of the store *)

(** What a handler writes: a JSON body with status 200, or [http.Error]. *)
Inductive Response (A : Type) : Type :=
| JSON (body : A)
| HTTPError (why : failure) (code : Z).
Arguments JSON {A} body.
Arguments HTTPError {A} why code.

(** The body of a successful scan. *)
Record ScanResult : Type := mkScanResult {
  success : bool;
  count   : Z;
  message : string
}.

(** The struct [stats] of [getStats]. *)
Record Stats : Type := mkStats {
  Total  : Z;
  Videos : Z;
  Images : Z
}.

(** [fmt.Sprintf("%d", n)] *)
Definition format_d (n : Z) : string := NilZero.string_of_int (Z.to_int n).

(** The field [message] of a successful scan. *)
Definition scan_message (c : Z) : string :=
  "Successfully scanned and added " ++ format_d c ++ " items".

Section Handlers.
Variable unicodeLower : string -> string.
Variable Join : string -> string -> string.
Variable env : Env.

(** The closure passed to [filepath.Walk] in [scanDirectory]; the
    variable [count] that it captures travels with the world.  Walk
    gives a [FileInfo] whenever it gives no error, so the case of
    neither is never met. *)
Definition scanFn : WalkFunc (Z * World) :=
  fun path info err '(count, w) =>
    match err with
    | Some e => (Some e, (count, w))
    | None =>
        match info with
        | None => (None, (count, w))
        | Some info =>
            if IsDir info then (None, (count, w))
            else
              match classify unicodeLower path with
              | None => (None, (count, w))
              | Some mediaType =>
                  (* Check if file already exists *)
                  let (r, w1) := Get_count_path env path w in
                  let found :=
                    match r with
                    | inr existing => (0 <? existing)%Z
                    | inl _ => false
                    end in
                  if found then (None, (count, w1))
                  else
                    let media :=
                      {| ID := 0; Path := path; Filename := Name info;
                         Size := Size_ info; Type_ := mediaType;
                         CreatedAt := 0 |} in
                    let (r2, w2) := NamedExec_insert env media w1 in
                    match r2 with
                    | inl e =>
                        (None, (count, snd (log (LogInsertFailed path e) w2)))
                    | inr _ => (None, ((count + 1)%Z, w2))
                    end
              end
        end
    end.

(** [scanDirectory], from the decoded request on. *)
Definition scanDirectory (fs : FileSystem) (reqPath : string)
  : M (Response ScanResult) :=
  if String.eqb reqPath "" then ret (HTTPError PathRequired 400)
  else
    log (LogScanStart reqPath) ;;;
    fun w =>
      let '(err, (count, w')) := Walk Join scanFn fs reqPath (0%Z, w) in
      match err with
      | Some e =>
          (log (LogScanFailed e) ;;; ret (HTTPError (ScanError e) 500)) w'
      | None =>
          (log (LogScanComplete count) ;;;
           ret (JSON {| success := true; count := count;
                        message := scan_message count |})) w'
      end.

(** [getMediaItems]; [mediaType] is the query parameter [type]. *)
Definition getMediaItems (mediaType : string)
  : M (Response (list MediaItem)) :=
  r <- (if negb (String.eqb mediaType "")
        then query env (SQL.select_type mediaType)
        else query env SQL.select_all) ;;
  match r with
  | inl e => log (LogFetchFailed e) ;;; ret (HTTPError (StoreError e) 500)
  | inr items => ret (JSON items)
  end.

(** One of the three [app.DB.Get(&stats.X, ...)] of [getStats] with the
    test that follows it: a count never yields [sql.ErrNoRows], so every
    error is logged, and the field keeps its zero value. *)
Definition Get_stat (which : statname) (q : Table -> Z) : M Z :=
  r <- query env q ;;
  match r with
  | inl e => log (LogStatFailed which e) ;;; ret 0%Z
  | inr n => ret n
  end.

(** [getStats] *)
Definition getStats : M (Response Stats) :=
  total  <- Get_stat StatTotal SQL.count_all ;;
  videos <- Get_stat StatVideos (SQL.count_type "video") ;;
  images <- Get_stat StatImages (SQL.count_type "image") ;;
  ret (JSON {| Total := total; Videos := videos; Images := images |}).
End Handlers.

(** ** Notions used in the statements *)

(** The extensions that the specification lists for each kind. *)
Definition video_extensions : list string :=
  [".mp4"; ".avi"; ".mkv"; ".mov"; ".wmv"; ".flv"; ".webm"].

Definition image_extensions : list string :=
  [".jpg"; ".jpeg"; ".png"; ".gif"; ".webp"].

(** Two ASCII strings that differ at most in the case of their letters. *)
Definition same_modulo_case (x y : string) : Prop :=
  isASCII x = true /\ isASCII y = true /\
  mapBytes lowerByte x = mapBytes lowerByte y.

(** A name part without dot and without separator. *)
Fixpoint plain (s : string) : bool :=
  match s with
  | EmptyString => true
  | String c r =>
      negb (IsPathSeparator c) && negb (Ascii.eqb c "."%char) && plain r
  end.

(** The first error that a walk of the tree meets, in the order of the
    walk: the failed reading of a directory, or the failed [Lstat] of one
    of its names. *)
Fixpoint first_error_in (fe : node -> option oserror)
    (names : list (string * (oserror + node))) : option oserror :=
  match names with
  | [] => None
  | (_, inl e) :: _ => Some e
  | (_, inr child) :: rest =>
      match fe child with
      | Some e => Some e
      | None => first_error_in fe rest
      end
  end.

Fixpoint first_error (n : node) : option oserror :=
  match n with
  | Node info listing =>
      if negb (IsDir info) then None
      else match listing with
           | inl e => Some e
           | inr names => first_error_in first_error names
           end
  end.

(** The first error that a scan rooted at [root] meets: the failed [Lstat]
    of the root itself, or the first error of its tree. *)
Definition scan_error (fs : FileSystem) (root : string) : option oserror :=
  match fs root with
  | inl e => Some e
  | inr n => first_error n
  end.

(** There is a record with this path. *)
Definition has_path (path : string) (t : Table) : bool :=
  existsb (SQL.where_path path) (rows t).

(** Newest first. *)
Definition newer_or_equal (a b : MediaItem) : Prop :=
  (CreatedAt b <= CreatedAt a)%Z.

(** Every row is a video or an image. *)
Definition kinds_ok (l : list MediaItem) : Prop :=
  Forall (fun r => Type_ r = "video" \/ Type_ r = "image") l.

(** What a scan may do to the catalog and to its counter between two
    moments: rows are appended at the end and nothing else changes; the
    counter and the id sequence advance with the rows appended; every
    appended row carries the kind of its extension; paths stay distinct. *)
Definition grows (unicodeLower : string -> string) (s s' : Z * World) : Prop :=
  exists added,
    rows (db (snd s')) = (rows (db (snd s)) ++ added)%list /\
    seq (db (snd s')) = (seq (db (snd s)) + Z.of_nat (length added))%Z /\
    fst s' = (fst s + Z.of_nat (length added))%Z /\
    (tick (snd s) <= tick (snd s'))%nat /\
    Forall (fun r => classify unicodeLower (Path r) = Some (Type_ r)) added /\
    (NoDup (map Path (rows (db (snd s)))) ->
     NoDup (map Path (rows (db (snd s'))))).


(** The log entries that [getStats] writes from state [w]: one for each
    count that failed. *)
Definition stat_failures (env : Env) (w : World) : list LogEntry :=
  ((if storage_fault env (tick w)
    then [LogStatFailed StatTotal StorageFailure] else [])
   ++ (if storage_fault env (Datatypes.S (tick w))
       then [LogStatFailed StatVideos StorageFailure] else [])
   ++ (if storage_fault env (Datatypes.S (Datatypes.S (tick w)))
       then [LogStatFailed StatImages StorageFailure] else []))%list.

(** The states of the server that the handlers can produce from a new
    database file, whatever the requests and the file systems they meet. *)
Inductive reachable (unicodeLower : string -> string)
    (Join : string -> string -> string) (env : Env) : World -> Prop :=
| reach_init : forall n l,
    reachable unicodeLower Join env
      {| db := initDB None; tick := n; logs := l |}
| reach_scan : forall w fs root,
    reachable unicodeLower Join env w ->
    reachable unicodeLower Join env
      (snd (scanDirectory unicodeLower Join env fs root w))
| reach_list : forall w mediaType,
    reachable unicodeLower Join env w ->
    reachable unicodeLower Join env (snd (getMediaItems env mediaType w))
| reach_stats : forall w,
    reachable unicodeLower Join env w ->
    reachable unicodeLower Join env (snd (getStats env w)).

(** [later w w']: the server passes from state [w] to state [w'] by
    handling requests, one after the other. *)
Inductive later (unicodeLower : string -> string)
    (Join : string -> string -> string) (env : Env) : World -> World -> Prop :=
| later_now : forall w, later unicodeLower Join env w w
| later_scan : forall w w' fs root,
    later unicodeLower Join env w w' ->
    later unicodeLower Join env w
      (snd (scanDirectory unicodeLower Join env fs root w'))
| later_list : forall w w' mediaType,
    later unicodeLower Join env w w' ->
    later unicodeLower Join env w (snd (getMediaItems env mediaType w'))
| later_stats : forall w w',
    later unicodeLower Join env w w' ->
    later unicodeLower Join env w (snd (getStats env w')).

(** ** The files of a walk, and the scan as insert-if-absent *)

(** The entries that are not directories, in the order in which a walk
    rooted at [path] hands them to its callback, up to the first error of
    the tree. *)
Fixpoint visited_in (Join : string -> string -> string)
    (vis : string -> node -> list (string * FileInfo))
    (path : string) (names : list (string * (oserror + node)))
    : list (string * FileInfo) :=
  match names with
  | [] => []
  | (_, inl _) :: _ => []
  | (name, inr child) :: rest =>
      (vis (Join path name) child
       ++ match first_error child with
          | Some _ => []
          | None => visited_in Join vis path rest
          end)%list
  end.

Fixpoint visited (Join : string -> string -> string)
    (path : string) (n : node) : list (string * FileInfo) :=
  match n with
  | Node info listing =>
      if negb (IsDir info) then [(path, info)]
      else match listing with
           | inl _ => []
           | inr names => visited_in Join (visited Join) path names
           end
  end.

Definition visited_root (Join : string -> string -> string)
    (fs : FileSystem) (root : string) : list (string * FileInfo) :=
  match fs root with
  | inl _ => []
  | inr n => visited Join root n
  end.

(** The state after the callback of the scan has seen one file. *)
Definition visit_file (unicodeLower : string -> string) (env : Env)
    (s : Z * World) (pf : string * FileInfo) : Z * World :=
  snd (scanFn unicodeLower env (fst pf) (Some (snd pf)) None s).

(** The row that the store makes of a file: the path as walked, the name
    and size of its [FileInfo], the kind of its extension, the next id and
    the time of the insert. *)
Definition row_of (t : Table) (now : Z) (path : string) (info : FileInfo)
    (kind : string) : MediaItem :=
  {| ID := seq t + 1; Path := path; Filename := Name info;
     Size := Size_ info; Type_ := kind; CreatedAt := now |}.

(** Insert-if-absent over a list of files, as a specification of the scan
    on a store that works: a file whose path classifies and is not yet in
    the table is appended; the check takes one statement and the insert a
    second one.  The result is the table and the number of statements
    sent. *)
Fixpoint index_files (unicodeLower : string -> string) (env : Env)
    (files : list (string * FileInfo)) (t : Table) (n : nat)
    : Table * nat :=
  match files with
  | [] => (t, n)
  | (path, info) :: rest =>
      match classify unicodeLower path with
      | None => index_files unicodeLower env rest t n
      | Some kind =>
          if has_path path t
          then index_files unicodeLower env rest t (Datatypes.S n)
          else index_files unicodeLower env rest
                 {| rows := (rows t
                             ++ [row_of t (current_timestamp env (Datatypes.S n))
                                   path info kind])%list;
                    seq := seq t + 1 |}
                 (Datatypes.S (Datatypes.S n))
      end
  end.

(** A name without path separator. *)
Fixpoint no_separator (s : string) : bool :=
  match s with
  | EmptyString => true
  | String c r => negb (IsPathSeparator c) && no_separator r
  end.

(** The record's path has an extension of this kind. *)
Definition has_kind (unicodeLower : string -> string) (kind : string)
    (r : MediaItem) : bool :=
  match classify unicodeLower (Path r) with
  | Some k => String.eqb k kind
  | None => false
  end.

(** A file that a scan has to add to the table [t]: its path classifies
    and has no record yet. *)
Definition is_new (unicodeLower : string -> string) (t : Table)
    (pf : string * FileInfo) : bool :=
  match classify unicodeLower (fst pf) with
  | Some _ => negb (has_path (fst pf) t)
  | None => false
  end.

(** The ids [1], [2], ..., [n]. *)
Definition ids_up_to (n : nat) : list Z := map Z.of_nat (List.seq 1 n).

(** ** Concrete file systems and environments *)

Module Scenario.

(** [filepath.Join] on a clean directory path and a plain name. *)
Definition plainJoin (dir name : string) : string := dir ++ "/" ++ name.

(** On ASCII-only strings [unicodeLower] is never called. *)
Definition noUnicode (s : string) : string := s.

Definition file (name : string) (size : Z) : string * (oserror + node) :=
  (name, inr (Node {| Name := name; Size_ := size; IsDir := false |} (inr []))).

Definition dir (name : string) (entries : list (string * (oserror + node)))
  : string * (oserror + node) :=
  (name, inr (Node {| Name := name; Size_ := 4096; IsDir := true |}
                   (inr entries))).

(** An entry whose name was read from the directory and whose [Lstat]
    then failed. *)
Definition vanished (name : string) : string * (oserror + node) :=
  (name, inl ErrNotExist).

Definition mount (root : string) (entries : list (string * (oserror + node)))
  : FileSystem :=
  fun p => if String.eqb p root then snd (dir root entries)
           else inl ErrNotExist.

(** The tree of the scenario of the specification: [a.mp4] (10 bytes),
    [b.jpg] (20), [c.txt] (5) and [sub/d.png] (30). *)
Definition tree : FileSystem :=
  mount "/media"
    [ file "a.mp4" 10; file "b.jpg" 20; file "c.txt" 5;
      dir "sub" [ file "d.png" 30 ] ].

(** One file that vanished before its [Lstat], between two media files. *)
Definition tree_with_vanished : FileSystem :=
  mount "/media" [ file "a.mp4" 10; vanished "gone.mp4"; file "z.jpg" 20 ].

(** A store that never fails, with a clock that stands still. *)
Definition steady (now : Z) : Env :=
  {| storage_fault := fun _ => false; current_timestamp := fun _ => now |}.

(** A store that fails on exactly the statements listed. *)
Definition failing (at_ : list nat) (now : Z) : Env :=
  {| storage_fault := fun n => existsb (Nat.eqb n) at_;
     current_timestamp := fun _ => now |}.

(** The server after [initDB] on a new database file. *)
Definition fresh : World := {| db := initDB None; tick := 0; logs := [] |}.

End Scenario.

Module Examples.

(** A scan whose root is a regular file. *)
Definition single_file : FileSystem :=
  fun p =>
    if String.eqb p "/media/clip.MP4"
    then inr (Node {| Name := "clip.MP4"; Size_ := 42; IsDir := false |}
                   (inr []))
    else inl ErrNotExist.

(** A tree that holds no media file. *)
Definition documents : FileSystem :=
  Scenario.mount "/docs"
    [ Scenario.file "notes.txt" 5;
      Scenario.dir "old" [ Scenario.file "README" 7 ] ].

(** A store that refuses every statement. *)
Definition down (now : Z) : Env :=
  {| storage_fault := fun _ => true; current_timestamp := fun _ => now |}.

End Examples.

(** * Properties *)

(** ** Induction on file trees *)

Section NodeInduction.
Variable P : node -> Prop.
Hypothesis Hunread : forall info e, P (Node info (inl e)).
Hypothesis Hlisted : forall info names,
  Forall (fun entry => match snd entry with
                       | inl _ => True
                       | inr child => P child
                       end) names ->
  P (Node info (inr names)).

Fixpoint node_ind (n : node) : P n :=
  match n with
  | Node info (inl e) => Hunread info e
  | Node info (inr names) =>
      Hlisted info names
        ((fix all (l : list (string * (oserror + node)))
            : Forall (fun entry => match snd entry with
                                   | inl _ => True
                                   | inr child => P child
                                   end) l :=
            match l with
            | [] => Forall_nil _
            | (name, st) :: r =>
                Forall_cons (name, st)
                  (match st as st0
                     return match st0 with
                            | inl _ => True
                            | inr child => P child
                            end
                   with
                   | inl _ => I
                   | inr child => node_ind child
                   end)
                  (all r)
            end) names)
  end.
End NodeInduction.

(** ** Strings *)

Lemma mapBytes_lower_id (s : string) :
  hasUpper s = false -> mapBytes lowerByte s = s.
Proof.
  induction s as [|c r IH]; simpl; intros H; [reflexivity|].
  apply orb_false_iff in H as [Hc Hr].
  rewrite (IH Hr). unfold lowerByte. rewrite Hc. reflexivity.
Qed.

Lemma ToLower_ascii (u : string -> string) (s : string) :
  isASCII s = true -> ToLower u s = mapBytes lowerByte s.
Proof.
  intros H. unfold ToLower. rewrite H.
  destruct (hasUpper s) eqn:Hu; [reflexivity|].
  symmetry. now apply mapBytes_lower_id.
Qed.

Lemma substring_drop (s1 s2 : string) :
  substring (String.length s1) (String.length s2) (s1 ++ s2) = s2.
Proof.
  induction s1 as [|c r IH]; simpl.
  - induction s2 as [|c r IH]; simpl; [reflexivity|].
    f_equal. destruct r; simpl in *; auto.
  - exact IH.
Qed.

Lemma get_plain (suf : string) (k : nat) (c : ascii) :
  plain suf = true -> String.get k suf = Some c ->
  IsPathSeparator c = false /\ Ascii.eqb c "."%char = false.
Proof.
  revert k. induction suf as [|a r IH]; simpl; intros k Hp Hg; [discriminate|].
  apply andb_true_iff in Hp as [Hp Hr]. apply andb_true_iff in Hp as [H1 H2].
  destruct k as [|k].
  - inversion Hg; subst. split; now apply negb_true_iff.
  - eauto.
Qed.

Lemma get_some_lt (s : string) (k : nat) :
  (k < String.length s)%nat -> exists c, String.get k s = Some c.
Proof.
  revert k. induction s as [|a r IH]; simpl; intros k Hk; [lia|].
  destruct k as [|k]; [eauto|]. apply IH. lia.
Qed.

Lemma length_append (s1 s2 : string) :
  String.length (s1 ++ s2) = (String.length s1 + String.length s2)%nat.
Proof. induction s1 as [|c r IH]; simpl; [reflexivity | now rewrite IH]. Qed.

Lemma get_append_at (s1 s2 : string) (k : nat) :
  String.get (String.length s1 + k) (s1 ++ s2) = String.get k s2.
Proof. rewrite Nat.add_comm. symmetry. apply append_correct2. Qed.

Lemma Ext_loop_S (path : string) (i : nat) :
  Ext_loop path (S i) =
  match String.get i path with
  | None => ""
  | Some c =>
      if IsPathSeparator c then ""
      else if Ascii.eqb c "."%char
           then String.substring i (String.length path - i) path
           else Ext_loop path i
  end.
Proof. reflexivity. Qed.

Lemma Ext_loop_suffix (stem suf : string) (k : nat) :
  plain suf = true -> (k <= String.length suf)%nat ->
  Ext_loop (stem ++ "." ++ suf) (S (String.length stem + k)) = "." ++ suf.
Proof.
  intros Hp. induction k as [|k IH]; intros Hk; rewrite Ext_loop_S.
  - rewrite get_append_at. simpl String.get.
    change (IsPathSeparator "."%char) with false. cbv iota.
    change (Ascii.eqb "." ".") with true. cbv iota.
    rewrite length_append, Nat.add_0_r.
    replace (String.length stem + String.length ("." ++ suf) - String.length stem)%nat
      with (String.length ("." ++ suf)) by lia.
    apply substring_drop.
  - rewrite get_append_at. simpl String.get.
    destruct (get_some_lt suf k) as [c Hc]; [lia|].
    rewrite Hc. destruct (get_plain suf k c Hp Hc) as [H1 H2].
    rewrite H1, H2.
    replace (String.length stem + S k)%nat
      with (S (String.length stem + k)) by lia.
    apply IH. lia.
Qed.

Lemma Ext_suffix (stem suf : string) :
  plain suf = true -> Ext (stem ++ "." ++ suf) = "." ++ suf.
Proof.
  intros Hp. unfold Ext.
  replace (String.length (stem ++ "." ++ suf))
    with (S (String.length stem + String.length suf)).
  - now apply Ext_loop_suffix.
  - rewrite length_append. simpl. lia.
Qed.

(** ** The classification table *)

Lemma supportedExtensions_spec (ext kind : string) :
  supportedExtensions ext = Some kind <->
  (kind = "video" /\ In ext video_extensions) \/
  (kind = "image" /\ In ext image_extensions).
Proof.
  split.
  - unfold supportedExtensions, supportedExtensions_table, lookup.
    repeat (match goal with
            | |- context [String.eqb ?k ext] =>
                destruct (String.eqb_spec k ext) as [<- | _]
            end;
            [ intros [= <-];
              first [ left; split; [reflexivity | simpl; auto 12]
                    | right; split; [reflexivity | simpl; auto 12] ] | ]).
    discriminate.
  - intros [[-> H] | [-> H]]; simpl in H;
      repeat (destruct H as [<- | H]; [reflexivity|]); contradiction.
Qed.

Lemma supported_kind (ext kind : string) :
  supportedExtensions ext = Some kind -> kind = "video" \/ kind = "image".
Proof. intros H. apply supportedExtensions_spec in H. tauto. Qed.

Lemma classify_ascii (u : string -> string) (path : string) :
  isASCII (Ext path) = true ->
  classify u path = supportedExtensions (mapBytes lowerByte (Ext path)).
Proof. intros H. unfold classify. now rewrite ToLower_ascii. Qed.

(** ** The table and its statements *)

Lemma count_pos_existsb {A : Type} (f : A -> bool) (l : list A) :
  (0 <? Z.of_nat (length (filter f l)))%Z = existsb f l.
Proof.
  induction l as [|a l IH]; simpl; [reflexivity|].
  destruct (f a); simpl; [|exact IH].
  apply Z.ltb_lt. lia.
Qed.

Lemma count_path_has (path : string) (t : Table) :
  (0 <? SQL.count_path path t)%Z = has_path path t.
Proof. apply count_pos_existsb. Qed.

Lemma existsb_app_one {A : Type} (f : A -> bool) (l : list A) (a : A) :
  existsb f (l ++ [a]) = existsb f l || f a.
Proof. rewrite existsb_app. simpl. now rewrite orb_false_r. Qed.

Lemma insert_absent (now : Z) (media : MediaItem) (t : Table) :
  has_path (Path media) t = false ->
  exists row,
    SQL.insert now media t
      = inr (ID row, {| rows := rows t ++ [row]; seq := ID row |}) /\
    ID row = (seq t + 1)%Z /\ Path row = Path media /\
    Filename row = Filename media /\ Size row = Size media /\
    Type_ row = Type_ media /\ CreatedAt row = now.
Proof.
  intros H. unfold SQL.insert. unfold has_path in H. rewrite H.
  exists {| ID := seq t + 1; Path := Path media; Filename := Filename media;
            Size := Size media; Type_ := Type_ media; CreatedAt := now |}.
  simpl. repeat split; reflexivity.
Qed.

Lemma insert_present (now : Z) (media : MediaItem) (t : Table) :
  has_path (Path media) t = true ->
  SQL.insert now media t = inl ConstraintViolation.
Proof. intros H. unfold SQL.insert. unfold has_path in H. now rewrite H. Qed.

Lemma insert_desc_perm (x : MediaItem) (l : list MediaItem) :
  Permutation (x :: l) (SQL.insert_desc x l).
Proof.
  induction l as [|y l IH]; simpl; [apply Permutation_refl|].
  destruct (CreatedAt y <=? CreatedAt x)%Z; [apply Permutation_refl|].
  eapply perm_trans; [apply perm_swap|]. now apply perm_skip.
Qed.

Lemma order_by_perm (l : list MediaItem) :
  Permutation l (SQL.order_by_created_at_desc l).
Proof.
  induction l as [|x l IH]; simpl; [constructor|].
  eapply perm_trans; [apply perm_skip, IH | apply insert_desc_perm].
Qed.

Lemma insert_desc_sorted (x : MediaItem) (l : list MediaItem) :
  StronglySorted newer_or_equal l ->
  StronglySorted newer_or_equal (SQL.insert_desc x l).
Proof.
  induction 1 as [|y l Hs IH Hy]; simpl.
  - repeat constructor.
  - destruct (Z.leb_spec (CreatedAt y) (CreatedAt x)) as [Hle | Hgt].
    + constructor; [now constructor|].
      constructor; [exact Hle|].
      eapply Forall_impl; [|exact Hy].
      unfold newer_or_equal. intros; lia.
    + constructor; [exact IH|].
      eapply Permutation_Forall; [apply insert_desc_perm|].
      constructor; [unfold newer_or_equal; lia | exact Hy].
Qed.

Lemma order_by_sorted (l : list MediaItem) :
  StronglySorted newer_or_equal (SQL.order_by_created_at_desc l).
Proof.
  induction l as [|x l IH]; simpl; [constructor | now apply insert_desc_sorted].
Qed.

Lemma count_split (l : list MediaItem) :
  kinds_ok l ->
  length l = (length (filter (SQL.where_type "video") l)
              + length (filter (SQL.where_type "image") l))%nat.
Proof.
  induction 1 as [|r l Hr _ IH]; simpl; [reflexivity|].
  assert (Hv : SQL.where_type "video" r = String.eqb (Type_ r) "video")
    by reflexivity.
  assert (Hi : SQL.where_type "image" r = String.eqb (Type_ r) "image")
    by reflexivity.
  rewrite Hv, Hi.
  destruct Hr as [-> | ->]; simpl; lia.
Qed.

(** ** Facts on [filepath.Walk] for any callback *)

Section WalkFacts.
Variable Join : string -> string -> string.
Variable S : Type.
Variable walkFn : WalkFunc S.

Section Preserved.
(** A preorder on states that every call of the callback respects
    is respected by the whole walk. *)
Variable R : S -> S -> Prop.
Hypothesis R_refl : forall s, R s s.
Hypothesis R_trans : forall s1 s2 s3, R s1 s2 -> R s2 s3 -> R s1 s3.
Hypothesis R_step : forall path info err s,
  R s (snd (walkFn path info err s)).

Lemma range_preserves (walk' : string -> node -> S -> option error * S)
    (path : string) (names : list (string * (oserror + node))) :
  Forall (fun entry => match snd entry with
                       | inl _ => True
                       | inr child =>
                           forall p s, R s (snd (walk' p child s))
                       end) names ->
  forall s, R s (snd (range Join walkFn walk' path names s)).
Proof.
  induction 1 as [|[name st] rest Hst _ IH]; intros s; simpl.
  - apply R_refl.
  - destruct st as [e | child]; simpl in Hst.
    + pose proof (R_step (Join path name) None (Some (PathError e)) s) as Hs.
      destruct (walkFn (Join path name) None (Some (PathError e)) s)
        as [r s'].
      simpl in Hs.
      destruct r as [e'|]; [destruct (is_SkipDir e')|];
        simpl; eauto.
    + pose proof (Hst (Join path name) s) as Hs.
      destruct (walk' (Join path name) child s) as [r s'].
      simpl in Hs.
      destruct r as [e'|];
        [destruct (negb (IsDir (info_of child)) || negb (is_SkipDir e'))|];
        simpl; eauto.
Qed.

Lemma walk_preserves (n : node) :
  forall path s, R s (snd (walk Join walkFn path n s)).
Proof.
  induction n as [info e | info names IH] using node_ind;
    intros path s; simpl.
  - destruct (negb (IsDir info)); apply R_step.
  - destruct (negb (IsDir info)); [apply R_step|].
    pose proof (R_step path (Some info) None s) as Hs.
    destruct (walkFn path (Some info) None s) as [err1 s1].
    simpl in Hs.
    destruct err1; [exact Hs|].
    eapply R_trans; [exact Hs|].
    now apply range_preserves.
Qed.

Lemma Walk_preserves (fs : FileSystem) (root : string) (s : S) :
  R s (snd (Walk Join walkFn fs root s)).
Proof.
  unfold Walk.
  assert (H : R s (snd (match fs root with
                        | inl e => walkFn root None (Some (PathError e)) s
                        | inr n => walk Join walkFn root n s
                        end))).
  { destruct (fs root); [apply R_step | apply walk_preserves]. }
  destruct (match fs root with
            | inl e => walkFn root None (Some (PathError e)) s
            | inr n => walk Join walkFn root n s
            end) as [err s'].
  simpl in H. destruct err as [[|]|]; exact H.
Qed.
End Preserved.

Section Outcome.
(** A callback that hands back the error it is given and reports none
    of its own makes the walk end with the first error of the tree. *)
Hypothesis fn_err : forall path info e s,
  fst (walkFn path info (Some (PathError e)) s) = Some (PathError e).
Hypothesis fn_ok : forall path info s,
  fst (walkFn path (Some info) None s) = None.

Lemma range_outcome (walk' : string -> node -> S -> option error * S)
    (path : string) (names : list (string * (oserror + node))) :
  Forall (fun entry => match snd entry with
                       | inl _ => True
                       | inr child =>
                           forall p s,
                             fst (walk' p child s)
                             = option_map PathError (first_error child)
                       end) names ->
  forall s, fst (range Join walkFn walk' path names s)
            = option_map PathError (first_error_in first_error names).
Proof.
  induction 1 as [|[name st] rest Hst _ IH]; intros s; simpl.
  - reflexivity.
  - destruct st as [e | child]; simpl in Hst.
    + pose proof (fn_err (Join path name) None e s) as Hs.
      destruct (walkFn (Join path name) None (Some (PathError e)) s)
        as [r s'].
      simpl in Hs. subst r. reflexivity.
    + pose proof (Hst (Join path name) s) as Hs.
      destruct (walk' (Join path name) child s) as [r s'].
      simpl in Hs. subst r.
      destruct (first_error child) as [e|]; simpl.
      * now rewrite orb_true_r.
      * apply IH.
Qed.

Lemma walk_outcome (n : node) :
  forall path s,
    fst (walk Join walkFn path n s)
    = option_map PathError (first_error n).
Proof.
  induction n as [info e | info names IH] using node_ind;
    intros path s; simpl.
  - destruct (negb (IsDir info)); [apply fn_ok | apply fn_err].
  - destruct (negb (IsDir info)); [apply fn_ok|].
    pose proof (fn_ok path info s) as Hs.
    destruct (walkFn path (Some info) None s) as [err1 s1].
    simpl in Hs. subst err1.
    now apply range_outcome.
Qed.

Lemma Walk_outcome (fs : FileSystem) (root : string) (s : S) :
  fst (Walk Join walkFn fs root s)
  = match fs root with
    | inl e => Some (PathError e)
    | inr n => option_map PathError (first_error n)
    end.
Proof.
  unfold Walk. destruct (fs root) as [e | n].
  - pose proof (fn_err root None e s) as Hs.
    destruct (walkFn root None (Some (PathError e)) s) as [r s'].
    simpl in Hs. subst r. reflexivity.
  - pose proof (walk_outcome n root s) as Hs.
    destruct (walk Join walkFn root n s) as [r s'].
    simpl in Hs. subst r.
    destruct (first_error n); reflexivity.
Qed.
End Outcome.
End WalkFacts.

(** ** One call of the scan callback *)

Lemma has_path_false_notin (path : string) (t : Table) :
  has_path path t = false -> ~ In path (map Path (rows t)).
Proof.
  unfold has_path. intros H Hin.
  apply in_map_iff in Hin as [r [Hr Hin]].
  assert (existsb (SQL.where_path path) (rows t) = true) as Ht.
  { apply existsb_exists. exists r. split; [exact Hin|].
    unfold SQL.where_path. rewrite Hr. apply String.eqb_refl. }
  congruence.
Qed.

Lemma has_path_in (path : string) (t : Table) :
  has_path path t = true <-> In path (map Path (rows t)).
Proof.
  unfold has_path. rewrite existsb_exists, in_map_iff.
  split; intros [r [H1 H2]]; exists r; unfold SQL.where_path in *.
  - split; [now apply String.eqb_eq | exact H1].
  - split; [exact H2 | now apply String.eqb_eq].
Qed.

Lemma NoDup_snoc {A : Type} (l : list A) (a : A) :
  NoDup l -> ~ In a l -> NoDup (l ++ [a]).
Proof.
  intros Hl Ha. apply NoDup_rev in Hl.
  rewrite <- (rev_involutive (l ++ [a])). apply NoDup_rev.
  rewrite rev_app_distr. simpl. constructor; [|exact Hl].
  now rewrite <- in_rev.
Qed.

Section ScanFacts.
Variable unicodeLower : string -> string.
Variable Join : string -> string -> string.
Variable env : Env.

Lemma grows_same (c : Z) (w w' : World) :
  db w' = db w -> (tick w <= tick w')%nat -> grows unicodeLower (c, w) (c, w').
Proof.
  intros Hdb Ht. exists []. simpl. rewrite Hdb, app_nil_r.
  repeat split; auto; lia.
Qed.

Lemma grows_refl (s : Z * World) : grows unicodeLower s s.
Proof. destruct s as [c w]. now apply grows_same. Qed.

Lemma grows_trans (s1 s2 s3 : Z * World) :
  grows unicodeLower s1 s2 -> grows unicodeLower s2 s3 -> grows unicodeLower s1 s3.
Proof.
  intros (a1 & R1 & Q1 & C1 & T1 & F1 & N1) (a2 & R2 & Q2 & C2 & T2 & F2 & N2).
  exists (a1 ++ a2)%list. rewrite length_app.
  split; [now rewrite R2, R1, app_assoc|].
  split; [lia|]. split; [lia|]. split; [lia|].
  split; [apply Forall_app; auto | auto].
Qed.

Lemma Get_count_path_eq (path : string) (w : World) :
  Get_count_path env path w
  = ((if storage_fault env (tick w) then inl StorageFailure
      else inr (SQL.count_path path (db w))),
     {| db := db w; tick := Datatypes.S (tick w); logs := logs w |}).
Proof.
  unfold Get_count_path, query, statement.
  now destruct (storage_fault env (tick w)).
Qed.

Lemma NamedExec_insert_eq (media : MediaItem) (w : World) :
  NamedExec_insert env media w
  = if storage_fault env (tick w)
    then (inl StorageFailure,
          {| db := db w; tick := Datatypes.S (tick w); logs := logs w |})
    else match SQL.insert (current_timestamp env (tick w)) media (db w) with
         | inl e =>
             (inl e,
              {| db := db w; tick := Datatypes.S (tick w); logs := logs w |})
         | inr (id, t') =>
             (inr id,
              {| db := t'; tick := Datatypes.S (tick w); logs := logs w |})
         end.
Proof. reflexivity. Qed.

Lemma scanFn_err (path : string) (info : option FileInfo) (e : oserror)
    (s : Z * World) :
  fst (scanFn unicodeLower env path info (Some (PathError e)) s) = Some (PathError e).
Proof. now destruct s. Qed.

Lemma scanFn_ok (path : string) (info : FileInfo) (s : Z * World) :
  fst (scanFn unicodeLower env path (Some info) None s) = None.
Proof.
  destruct s as [c w]. unfold scanFn.
  destruct (IsDir info); [reflexivity|].
  destruct (classify unicodeLower path); [|reflexivity].
  rewrite Get_count_path_eq.
  match goal with |- context [if ?b then _ else _] => destruct b end;
    [reflexivity|].
  match goal with
  | |- context [NamedExec_insert env ?m ?w1] =>
      destruct (NamedExec_insert env m w1) as [[?|?] ?]
  end; reflexivity.
Qed.

Lemma scanFn_grows (path : string) (info : option FileInfo)
    (err : option error) (s : Z * World) :
  grows unicodeLower s (snd (scanFn unicodeLower env path info err s)).
Proof.
  destruct s as [c w]. unfold scanFn.
  destruct err; [apply grows_refl|].
  destruct info as [info|]; [|apply grows_refl].
  destruct (IsDir info); [apply grows_refl|].
  destruct (classify unicodeLower path) as [mediaType|] eqn:Hc;
    [|apply grows_refl].
  rewrite Get_count_path_eq.
  set (w1 := {| db := db w; tick := Datatypes.S (tick w); logs := logs w |}).
  assert (Hfound :
    forall b, (b = false \/ b = has_path path (db w)) ->
    grows unicodeLower (c, w)
      (snd (if b then (None, (c, w1))
            else
              let (r2, w2) :=
                NamedExec_insert env
                  {| ID := 0; Path := path; Filename := Name info;
                     Size := Size_ info; Type_ := mediaType;
                     CreatedAt := 0 |} w1 in
              match r2 with
              | inl e => (None (A:=error),
                          (c, snd (log (LogInsertFailed path e) w2)))
              | inr _ => (None, ((c + 1)%Z, w2))
              end))).
  { intros b Hb. destruct b eqn:Eb.
    - apply grows_same; simpl; [reflexivity | lia].
    - rewrite NamedExec_insert_eq.
      destruct (storage_fault env (tick w1)).
      + apply grows_same; simpl; [reflexivity | lia].
      + destruct (has_path path (db w)) eqn:Hp.
        * rewrite insert_present by exact Hp.
          apply grows_same; simpl; [reflexivity | lia].
        * destruct (insert_absent (current_timestamp env (tick w1))
                      {| ID := 0; Path := path; Filename := Name info;
                         Size := Size_ info; Type_ := mediaType;
                         CreatedAt := 0 |} (db w1) Hp)
            as (row & Hins & Hid & Hpath & _ & _ & Hty & _).
          rewrite Hins. exists [row]. simpl in *.
          repeat split; auto; try lia.
          -- constructor; [|constructor]. now rewrite Hpath, Hty.
          -- intros Hnd. rewrite map_app. simpl. rewrite Hpath.
             apply NoDup_snoc; [exact Hnd|].
             now apply has_path_false_notin. }
  destruct (storage_fault env (tick w)); cbv zeta.
  - exact (Hfound false (or_introl eq_refl)).
  - exact (Hfound _ (or_intror (count_path_has path (db w)))).
Qed.

Lemma Walk_grows (fs : FileSystem) (root : string) (s : Z * World) :
  grows unicodeLower s (snd (Walk Join (scanFn unicodeLower env) fs root s)).
Proof.
  apply Walk_preserves.
  - apply grows_refl.
  - apply grows_trans.
  - intros. apply scanFn_grows.
Qed.


Lemma Walk_scan_outcome (fs : FileSystem) (root : string) (s : Z * World) :
  fst (Walk Join (scanFn unicodeLower env) fs root s)
  = match fs root with
    | inl e => Some (PathError e)
    | inr n => option_map PathError (first_error n)
    end.
Proof.
  apply Walk_outcome.
  - intros. apply scanFn_err.
  - intros. apply scanFn_ok.
Qed.
End ScanFacts.

(** ** Scanning the same tree again *)


Lemma healthy_from_le (env : Env) (n m : nat) :
  healthy_from env n -> (n <= m)%nat -> healthy_from env m.
Proof. unfold healthy_from. intros H Hle k Hk. apply H. lia. Qed.

Lemma walk_Node {S : Type} (Join : string -> string -> string)
    (fn : WalkFunc S) (path : string) (info : FileInfo)
    (listing : oserror + list (string * (oserror + node))) (s : S) :
  walk Join fn path (Node info listing) s
  = if negb (IsDir info) then fn path (Some info) None s
    else match listing with
         | inl e => fn path (Some info) (Some (PathError e)) s
         | inr names =>
             let (err1, s1) := fn path (Some info) None s in
             match err1 with
             | Some _ => (err1, s1)
             | None => range Join fn (walk Join fn) path names s1
             end
         end.
Proof. reflexivity. Qed.

Section ScanAgain.
Variable unicodeLower : string -> string.
Variable Join : string -> string -> string.
Variable env : Env.

Lemma scanFn_dir (path : string) (info : FileInfo) (s : Z * World) :
  IsDir info = true ->
  scanFn unicodeLower env path (Some info) None s = (None, s).
Proof. intros H. destruct s as [c w]. unfold scanFn. now rewrite H. Qed.



End ScanAgain.

(** ** The handlers *)

Section HandlerFacts.
Variable unicodeLower : string -> string.
Variable Join : string -> string -> string.
Variable env : Env.

Lemma scanDirectory_empty (fs : FileSystem) (w : World) :
  scanDirectory unicodeLower Join env fs "" w
  = (HTTPError PathRequired 400, w).
Proof. reflexivity. Qed.

Lemma scanDirectory_unfold (fs : FileSystem) (root : string) (w : World) :
  root <> "" ->
  scanDirectory unicodeLower Join env fs root w
  = let '(err, (c, w')) :=
      Walk Join (scanFn unicodeLower env) fs root
        (0%Z, {| db := db w; tick := tick w;
                 logs := (logs w ++ [LogScanStart root])%list |}) in
    match err with
    | Some e =>
        (HTTPError (ScanError e) 500,
         {| db := db w'; tick := tick w';
            logs := (logs w' ++ [LogScanFailed e])%list |})
    | None =>
        (JSON {| success := true; count := c; message := scan_message c |},
         {| db := db w'; tick := tick w';
            logs := (logs w' ++ [LogScanComplete c])%list |})
    end.
Proof.
  intros Hr. unfold scanDirectory.
  apply String.eqb_neq in Hr. rewrite Hr.
  unfold bind, log, ret. simpl.
  destruct (Walk Join (scanFn unicodeLower env) fs root _)
    as [[e|] [c w']]; reflexivity.
Qed.

(** The outcome of a scan with a root path, and what it did to the
    catalog. *)
Lemma scanDirectory_result (fs : FileSystem) (root : string) (w : World) :
  root <> "" ->
  exists c,
    grows unicodeLower (0%Z, w)
      (c, snd (scanDirectory unicodeLower Join env fs root w)) /\
    fst (scanDirectory unicodeLower Join env fs root w)
    = match scan_error fs root with
      | Some e => HTTPError (ScanError (PathError e)) 500
      | None =>
          JSON {| success := true; count := c; message := scan_message c |}
      end.
Proof.
  intros Hr. rewrite (scanDirectory_unfold fs root w Hr).
  set (s0 := (0%Z, {| db := db w; tick := tick w;
                      logs := (logs w ++ [LogScanStart root])%list |})).
  pose proof (Walk_grows unicodeLower Join env fs root s0) as Hg.
  pose proof (Walk_scan_outcome unicodeLower Join env fs root s0) as Ho.
  destruct (Walk Join (scanFn unicodeLower env) fs root s0)
    as [err [c w']].
  simpl in Hg, Ho. subst err. exists c.
  assert (Hgw : forall l,
    grows unicodeLower (0%Z, w)
      (c, {| db := db w'; tick := tick w'; logs := l |})).
  { intros l. destruct Hg as (added & H1 & H2 & H3 & H4 & H5 & H6).
    exists added. simpl in *. repeat split; auto. }
  unfold scan_error.
  destruct (fs root) as [e | n]; simpl.
  - split; [apply Hgw | reflexivity].
  - destruct (first_error n); simpl; (split; [apply Hgw | reflexivity]).
Qed.

(** Every scan, with or without a root path, only appends rows. *)
Lemma scanDirectory_grows (fs : FileSystem) (root : string) (w : World) :
  exists c,
    grows unicodeLower (0%Z, w)
      (c, snd (scanDirectory unicodeLower Join env fs root w)).
Proof.
  destruct (String.eqb_spec root "") as [-> | Hr].
  - exists 0%Z. rewrite scanDirectory_empty. apply grows_refl.
  - destruct (scanDirectory_result fs root w Hr) as (c & Hg & _). eauto.
Qed.


Lemma query_eq {A : Type} (q : Table -> A) (w : World) :
  query env q w
  = ((if storage_fault env (tick w) then inl StorageFailure
      else inr (q (db w))),
     {| db := db w; tick := Datatypes.S (tick w); logs := logs w |}).
Proof. unfold query, statement. now destruct (storage_fault env (tick w)). Qed.

Lemma Get_stat_eq (which : statname) (q : Table -> Z) (w : World) :
  Get_stat env which q w
  = if storage_fault env (tick w)
    then (0%Z, {| db := db w; tick := Datatypes.S (tick w);
                  logs := (logs w ++ [LogStatFailed which StorageFailure])%list |})
    else (q (db w),
          {| db := db w; tick := Datatypes.S (tick w); logs := logs w |}).
Proof.
  unfold Get_stat, bind. rewrite query_eq.
  now destruct (storage_fault env (tick w)).
Qed.

Lemma getStats_run (w : World) :
  getStats env w
  = (JSON {| Total  := if storage_fault env (tick w) then 0%Z
                       else SQL.count_all (db w);
             Videos := if storage_fault env (Datatypes.S (tick w)) then 0%Z
                       else SQL.count_type "video" (db w);
             Images := if storage_fault env
                            (Datatypes.S (Datatypes.S (tick w)))
                       then 0%Z
                       else SQL.count_type "image" (db w) |},
     {| db := db w; tick := Datatypes.S (Datatypes.S (Datatypes.S (tick w)));
        logs := (logs w ++ stat_failures env w)%list |}).
Proof.
  unfold getStats, bind, stat_failures. rewrite Get_stat_eq.
  destruct (storage_fault env (tick w));
    rewrite Get_stat_eq; simpl tick;
    destruct (storage_fault env (Datatypes.S (tick w)));
    rewrite Get_stat_eq; simpl tick;
    destruct (storage_fault env (Datatypes.S (Datatypes.S (tick w))));
    unfold ret; simpl; rewrite ?app_nil_r, <- ?app_assoc; reflexivity.
Qed.

Lemma getStats_eq (w : World) :
  fst (getStats env w)
  = JSON {| Total  := if storage_fault env (tick w) then 0%Z
                      else SQL.count_all (db w);
            Videos := if storage_fault env (Datatypes.S (tick w)) then 0%Z
                      else SQL.count_type "video" (db w);
            Images := if storage_fault env (Datatypes.S (Datatypes.S (tick w)))
                      then 0%Z
                      else SQL.count_type "image" (db w) |}
  /\ db (snd (getStats env w)) = db w
  /\ tick (snd (getStats env w)) = (3 + tick w)%nat.
Proof. rewrite getStats_run. simpl. auto. Qed.

Lemma getMediaItems_eq (mediaType : string) (w : World) :
  fst (getMediaItems env mediaType w)
  = (if storage_fault env (tick w)
     then HTTPError (StoreError StorageFailure) 500
     else JSON (if String.eqb mediaType "" then SQL.select_all (db w)
                else SQL.select_type mediaType (db w)))
  /\ db (snd (getMediaItems env mediaType w)) = db w.
Proof.
  unfold getMediaItems, bind.
  destruct (String.eqb mediaType ""); cbv beta iota delta [negb];
    rewrite query_eq; destruct (storage_fault env (tick w)); simpl; auto.
Qed.

(** In every reachable state the paths are distinct and every row is a
    video or an image. *)
Lemma reachable_inv (w : World) :
  reachable unicodeLower Join env w ->
  NoDup (map Path (rows (db w))) /\ kinds_ok (rows (db w)).
Proof.
  induction 1 as [n l | w fs root _ [IHn IHk] | w ty _ IH | w _ IH].
  - simpl. split; constructor.
  - destruct (scanDirectory_grows fs root w)
      as (c & added & Hr & _ & _ & _ & Hf & Hn).
    simpl in *. split; [auto|].
    rewrite Hr. apply Forall_app. split; [exact IHk|].
    eapply Forall_impl; [|exact Hf].
    intros r Hc. simpl in Hc. unfold classify in Hc.
    now apply supported_kind in Hc.
  - now rewrite (proj2 (getMediaItems_eq ty w)).
  - destruct (getStats_eq w) as (_ & Hdb & _). now rewrite Hdb.
Qed.
End HandlerFacts.

Lemma first_error_in_app (pre post : list (string * (oserror + node)))
    (name : string) (e : oserror) :
  first_error_in first_error pre = None ->
  first_error_in first_error (pre ++ (name, inl e) :: post)%list = Some e.
Proof.
  induction pre as [|[nm [e'|c]] pre IH]; simpl; intros H.
  - reflexivity.
  - discriminate.
  - destruct (first_error c); [discriminate | auto].
Qed.

Section CallbackSteps.
Variable unicodeLower : string -> string.
Variable env : Env.

(** One visit of a file: either nothing is written, or exactly one row
    with the visited path is appended and the counter moves by one. *)
Lemma scanFn_visit (path : string) (info : FileInfo) (c : Z) (w : World) :
  exists c' w',
    scanFn unicodeLower env path (Some info) None (c, w)
    = (None, (c', w')) /\
    ((c' = c /\ db w' = db w) \/
     (c' = (c + 1)%Z /\ has_path path (db w) = false /\
      exists row,
        rows (db w') = (rows (db w) ++ [row])%list /\
        Path row = path /\
        seq (db w') = (seq (db w) + 1)%Z)).
Proof.
  unfold scanFn.
  destruct (IsDir info); [eexists _, _; split; [reflexivity | now left]|].
  destruct (classify unicodeLower path) as [mediaType|];
    [|eexists _, _; split; [reflexivity | now left]].
  rewrite Get_count_path_eq. cbv zeta.
  assert (Hins : forall w1, db w1 = db w ->
    (storage_fault env (tick w1) = true \/ has_path path (db w) = true ->
     exists c' w',
       (let (r2, w2) :=
          NamedExec_insert env
            {| ID := 0; Path := path; Filename := Name info;
               Size := Size_ info; Type_ := mediaType; CreatedAt := 0 |}
            w1 in
        match r2 with
        | inl e => (None (A:=error),
                    (c, snd (log (LogInsertFailed path e) w2)))
        | inr _ => (None, ((c + 1)%Z, w2))
        end) = (None, (c', w')) /\ c' = c /\ db w' = db w) /\
    (storage_fault env (tick w1) = false -> has_path path (db w) = false ->
     exists c' w',
       (let (r2, w2) :=
          NamedExec_insert env
            {| ID := 0; Path := path; Filename := Name info;
               Size := Size_ info; Type_ := mediaType; CreatedAt := 0 |}
            w1 in
        match r2 with
        | inl e => (None (A:=error),
                    (c, snd (log (LogInsertFailed path e) w2)))
        | inr _ => (None, ((c + 1)%Z, w2))
        end) = (None, (c', w')) /\ c' = (c + 1)%Z /\
       exists row,
         rows (db w') = (rows (db w) ++ [row])%list /\
         Path row = path /\ seq (db w') = (seq (db w) + 1)%Z)).
  { intros w1 Hdb. rewrite NamedExec_insert_eq. split.
    - intros [Hf | Hp].
      + rewrite Hf. eexists _, _. split; [reflexivity|]. simpl. auto.
      + destruct (storage_fault env (tick w1));
          [eexists _, _; split; [reflexivity|]; simpl; auto|].
        rewrite insert_present by (now rewrite Hdb).
        eexists _, _. split; [reflexivity|]. simpl. auto.
    - intros Hf Hp. rewrite Hf.
      destruct (insert_absent (current_timestamp env (tick w1))
                  {| ID := 0; Path := path; Filename := Name info;
                     Size := Size_ info; Type_ := mediaType;
                     CreatedAt := 0 |} (db w1))
        as (row & Hi & Hid & Hpath & _); [now rewrite Hdb|].
      rewrite Hi. eexists _, _. split; [reflexivity|].
      split; [reflexivity|]. exists row. simpl in *.
      rewrite Hdb in *. auto. }
  set (w1 := {| db := db w; tick := Datatypes.S (tick w); logs := logs w |}).
  destruct (Hins w1 eq_refl) as [Hfail Hgood].
  destruct (storage_fault env (tick w)).
  - destruct (storage_fault env (tick w1)) eqn:Hf1;
      destruct (has_path path (db w)) eqn:Hp.
    + destruct Hfail as (c' & w' & -> & -> & Hd); auto.
      eexists _, _. split; [reflexivity | now left].
    + destruct Hfail as (c' & w' & -> & -> & Hd); auto.
      eexists _, _. split; [reflexivity | now left].
    + destruct Hfail as (c' & w' & -> & -> & Hd); auto.
      eexists _, _. split; [reflexivity | now left].
    + destruct Hgood as (c' & w' & -> & -> & Hrow); auto.
      eexists _, _. split; [reflexivity | right; auto].
  - rewrite count_path_has.
    destruct (has_path path (db w)) eqn:Hp.
    + eexists _, _. split; [reflexivity | now left].
    + destruct (storage_fault env (tick w1)) eqn:Hf1.
      * destruct Hfail as (c' & w' & -> & -> & Hd); auto.
        eexists _, _. split; [reflexivity | now left].
      * destruct Hgood as (c' & w' & -> & -> & Hrow); auto.
        eexists _, _. split; [reflexivity | right; auto].
Qed.
End CallbackSteps.

Section LaterFacts.
Variable unicodeLower : string -> string.
Variable Join : string -> string -> string.
Variable env : Env.

Lemma later_appends (w w' : World) :
  later unicodeLower Join env w w' ->
  exists added, rows (db w') = (rows (db w) ++ added)%list.
Proof.
  induction 1 as [w | w w' fs root _ [a IH] | w w' ty _ [a IH]
                   | w w' _ [a IH]].
  - exists []. now rewrite app_nil_r.
  - destruct (scanDirectory_grows unicodeLower Join env fs root w')
      as (c & a' & Hr & _).
    simpl in Hr. exists (a ++ a')%list. now rewrite Hr, IH, app_assoc.
  - exists a. now rewrite (proj2 (getMediaItems_eq env ty w')).
  - exists a. destruct (getStats_eq env w') as (_ & Hdb & _).
    now rewrite Hdb.
Qed.
End LaterFacts.

(** ** The scenario of the specification, run *)

Example scenario_scan :
  let env := Scenario.steady 100 in
  let out := scanDirectory Scenario.noUnicode Scenario.plainJoin env
               Scenario.tree "/media" Scenario.fresh in
  fst out = JSON {| success := true; count := 3;
                    message := "Successfully scanned and added 3 items" |} /\
  fst (getStats env (snd out))
  = JSON {| Total := 3; Videos := 1; Images := 2 |} /\
  map Path (rows (db (snd out)))
  = ["/media/a.mp4"; "/media/b.jpg"; "/media/sub/d.png"].
Proof. repeat split; reflexivity. Qed.

(** * The claims *)

(** C3.  Classification is a case-insensitive function of the extension of
    the path.  A path classifies as video exactly when its lowercased
    extension is one of [.mp4 .avi .mkv .mov .wmv .flv .webm], and as
    image exactly when it is one of [.jpg .jpeg .png .gif .webp]; two
    paths whose extensions differ only in the case of their ASCII letters
    classify alike; the extension of [stem.suf] is [.suf]; [FILE.MP4],
    [file.Mp4] and [file.mp4] are videos; and a scan appends no row whose
    path does not classify, with the kind the table gives. *)
Theorem classification_by_extension :
  forall (unicodeLower : string -> string),
    (forall path kind,
        classify unicodeLower path = Some kind <->
        (kind = "video" /\
         In (ToLower unicodeLower (Ext path)) video_extensions) \/
        (kind = "image" /\
         In (ToLower unicodeLower (Ext path)) image_extensions)) /\
    (forall p q,
        same_modulo_case (Ext p) (Ext q) ->
        classify unicodeLower p = classify unicodeLower q) /\
    (forall stem suf,
        plain suf = true -> Ext (stem ++ "." ++ suf) = "." ++ suf) /\
    (classify unicodeLower "FILE.MP4" = Some "video" /\
     classify unicodeLower "file.Mp4" = Some "video" /\
     classify unicodeLower "file.mp4" = Some "video") /\
    (forall Join env fs root w r,
        In r (rows (db (snd (scanDirectory unicodeLower Join env fs root w)))) ->
        In r (rows (db w)) \/
        classify unicodeLower (Path r) = Some (Type_ r)).
Proof.
  intros u. repeat split.
  - apply supportedExtensions_spec.
  - apply supportedExtensions_spec.
  - intros p q (Hp & Hq & Heq).
    now rewrite (classify_ascii u p Hp), (classify_ascii u q Hq), Heq.
  - apply Ext_suffix.
  - intros Join env fs root w r Hin.
    destruct (scanDirectory_grows u Join env fs root w)
      as (c & added & Hr & _ & _ & _ & Hf & _).
    simpl in Hr, Hf. rewrite Hr in Hin.
    apply in_app_or in Hin as [Hin | Hin]; [now left | right].
    rewrite Forall_forall in Hf. now apply Hf.
Qed.

Lemma classification_by_extension_witness :
  same_modulo_case (Ext "/media/Clip.MKV") (Ext "/media/other.mkv") /\
  plain "jpeg" = true /\
  classify Scenario.noUnicode "/media/Clip.MKV"
  = classify Scenario.noUnicode "/media/other.mkv" /\
  Ext ("/media/holiday" ++ "." ++ "jpeg") = "." ++ "jpeg".
Proof.
  assert (H : same_modulo_case (Ext "/media/Clip.MKV") (Ext "/media/other.mkv"))
    by (repeat split; reflexivity).
  destruct (classification_by_extension Scenario.noUnicode)
    as (_ & Hcase & Hext & _).
  split; [exact H|]. split; [reflexivity|].
  split; [exact (Hcase _ _ H) | exact (Hext "/media/holiday" "jpeg" eq_refl)].
Defined.

(** C4.  The store enforces the uniqueness of paths by itself.  When two
    records with the same path are inserted by direct calls of the store,
    on a store that works and holds no record with that path, the first
    insert succeeds and the second fails with [ConstraintViolation],
    leaving one record with that path; and no insert, whatever the state
    of the table, makes two rows share a path. *)
Theorem store_enforces_unique_path :
  forall (env : Env) (w : World) (m1 m2 : MediaItem),
    Path m1 = Path m2 ->
    has_path (Path m1) (db w) = false ->
    storage_fault env (tick w) = false ->
    storage_fault env (Datatypes.S (tick w)) = false ->
    (exists id w1 w2,
        NamedExec_insert env m1 w = (inr id, w1) /\
        NamedExec_insert env m2 w1 = (inl ConstraintViolation, w2) /\
        db w2 = db w1 /\
        SQL.count_path (Path m1) (db w2) = 1%Z) /\
    (forall now m t id t',
        SQL.insert now m t = inr (id, t') ->
        NoDup (map Path (rows t)) -> NoDup (map Path (rows t'))).
Proof.
  intros env w m1 m2 Hsame Habs Hf0 Hf1. split.
  - destruct (insert_absent (current_timestamp env (tick w)) m1 (db w) Habs)
      as (row & Hins & _ & Hpath & _).
    rewrite (NamedExec_insert_eq env m1 w), Hf0, Hins.
    eexists _, _, _. split; [reflexivity|].
    rewrite NamedExec_insert_eq. simpl tick. rewrite Hf1. simpl db.
    assert (Hnow : has_path (Path m2)
                     {| rows := (rows (db w) ++ [row])%list; seq := ID row |}
                   = true).
    { unfold has_path. simpl. rewrite existsb_app_one.
      unfold SQL.where_path at 2. rewrite Hpath, Hsame, String.eqb_refl.
      apply orb_true_r. }
    rewrite (insert_present _ m2 _ Hnow).
    split; [reflexivity|]. split; [reflexivity|].
    unfold SQL.count_path. simpl. rewrite filter_app, length_app. simpl.
    unfold SQL.where_path at 2. rewrite Hpath, String.eqb_refl. simpl.
    assert (Hnone : filter (SQL.where_path (Path m1)) (rows (db w)) = []).
    { unfold has_path in Habs.
      destruct (filter (SQL.where_path (Path m1)) (rows (db w)))
        as [|r l] eqn:Hfl; [reflexivity|].
      assert (Hin : In r (filter (SQL.where_path (Path m1)) (rows (db w))))
        by (rewrite Hfl; now left).
      apply filter_In in Hin as [Hin Hr].
      assert (existsb (SQL.where_path (Path m1)) (rows (db w)) = true)
        by (apply existsb_exists; eauto).
      congruence. }
    now rewrite Hnone.
  - intros now m t id t' Hins Hnd. unfold SQL.insert in Hins.
    destruct (existsb (SQL.where_path (Path m)) (rows t)) eqn:He;
      [discriminate|].
    inversion Hins; subst. simpl. rewrite map_app. simpl.
    apply NoDup_snoc; [exact Hnd|].
    now apply has_path_false_notin.
Qed.

Lemma store_enforces_unique_path_witness :
  let m := {| ID := 0; Path := "/media/a.mp4"; Filename := "a.mp4";
              Size := 10; Type_ := "video"; CreatedAt := 0 |} in
  let env := Scenario.steady 100 in
  Path m = Path m /\
  has_path (Path m) (db Scenario.fresh) = false /\
  storage_fault env 0 = false /\
  storage_fault env 1 = false /\
  exists id w1 w2,
    NamedExec_insert env m Scenario.fresh = (inr id, w1) /\
    NamedExec_insert env m w1 = (inl ConstraintViolation, w2) /\
    db w2 = db w1 /\
    SQL.count_path (Path m) (db w2) = 1%Z.
Proof.
  intros m env.
  split; [reflexivity|]. split; [reflexivity|].
  split; [reflexivity|]. split; [reflexivity|].
  exact (proj1 (store_enforces_unique_path env Scenario.fresh m m
                  eq_refl eq_refl eq_refl eq_refl)).
Defined.

(** C5.  A root path that does not exist or cannot be read makes the scan
    answer with an error, not with a count of zero: when [Lstat] of the
    root fails, or the root is a directory whose names cannot be read,
    [scanDirectory] answers [http.Error] (status 400 for the empty path,
    status 500 with the error of the file system otherwise), never a JSON
    body, and the catalog is as it was. *)
Theorem missing_root_is_scan_error :
  forall (unicodeLower : string -> string)
         (Join : string -> string -> string) (env : Env)
         (fs : FileSystem) (root : string) (w : World) (e : oserror),
    (fs root = inl e \/
     exists info, IsDir info = true /\ fs root = inr (Node info (inl e))) ->
    fst (scanDirectory unicodeLower Join env fs root w)
    = (if String.eqb root "" then HTTPError PathRequired 400
       else HTTPError (ScanError (PathError e)) 500) /\
    (forall res,
        fst (scanDirectory unicodeLower Join env fs root w) <> JSON res) /\
    db (snd (scanDirectory unicodeLower Join env fs root w)) = db w.
Proof.
  intros u Join env fs root w e Hroot.
  assert (H : fst (scanDirectory u Join env fs root w)
              = (if String.eqb root "" then HTTPError PathRequired 400
                 else HTTPError (ScanError (PathError e)) 500) /\
              db (snd (scanDirectory u Join env fs root w)) = db w).
  { destruct (String.eqb_spec root "") as [-> | Hr].
    - rewrite scanDirectory_empty. auto.
    - rewrite (scanDirectory_unfold u Join env fs root w Hr). unfold Walk.
      destruct Hroot as [-> | (info & Hd & ->)].
      + simpl. auto.
      + rewrite walk_Node, Hd. simpl. auto. }
  destruct H as [Hres Hdb]. repeat split; auto.
  intros res. rewrite Hres. destruct (String.eqb root ""); discriminate.
Qed.

Lemma missing_root_is_scan_error_witness :
  (Scenario.tree "/nowhere" = inl ErrNotExist \/
   exists info, IsDir info = true /\
                Scenario.tree "/nowhere" = inr (Node info (inl ErrNotExist))) /\
  fst (scanDirectory Scenario.noUnicode Scenario.plainJoin
         (Scenario.steady 100) Scenario.tree "/nowhere" Scenario.fresh)
  = HTTPError (ScanError (PathError ErrNotExist)) 500.
Proof.
  assert (H : Scenario.tree "/nowhere" = inl ErrNotExist \/
              exists info, IsDir info = true /\
                Scenario.tree "/nowhere" = inr (Node info (inl ErrNotExist)))
    by (left; reflexivity).
  split; [exact H|].
  exact (proj1 (missing_root_is_scan_error Scenario.noUnicode
                  Scenario.plainJoin (Scenario.steady 100) Scenario.tree
                  "/nowhere" Scenario.fresh ErrNotExist H)).
Defined.

(** C2, as the specification states it, fails: with one entry whose
    [Lstat] fails because the file vanished after its name was read,
    between two readable media files, the scan does not skip the entry and
    answer with a count of 2; it answers with an error. *)
Lemma vanished_file_aborts_scan :
  scan_error Scenario.tree_with_vanished "/media" = Some ErrNotExist /\
  fst (scanDirectory Scenario.noUnicode Scenario.plainJoin
         (Scenario.steady 100) Scenario.tree_with_vanished "/media"
         Scenario.fresh)
  = HTTPError (ScanError (PathError ErrNotExist)) 500 /\
  ~ (exists res,
        fst (scanDirectory Scenario.noUnicode Scenario.plainJoin
               (Scenario.steady 100) Scenario.tree_with_vanished "/media"
               Scenario.fresh) = JSON res /\
        count res = 2%Z).
Proof.
  split; [reflexivity|]. split; [reflexivity|].
  intros (res & H & _). discriminate H.
Qed.

(** C6.  During a scan the counter moves with the successful inserts and
    only with them.  A visit of a file returns no error to the walk
    whatever the store answers, and either leaves counter and table as
    they were or appends one row for the visited path and adds one to the
    counter; an insert that fails leaves the table as it was.  So a scan
    of a tree without file-system error answers with a count, however
    many inserts fail, and that count is the number of rows appended.
    With a store that fails on the insert of the first file of the
    scenario tree, the two other media files are still inserted and the
    count is 2. *)
Theorem count_follows_successful_inserts :
  forall (unicodeLower : string -> string)
         (Join : string -> string -> string) (env : Env),
    (forall path info c w,
        exists c' w',
          scanFn unicodeLower env path (Some info) None (c, w)
          = (None, (c', w')) /\
          ((c' = c /\ db w' = db w) \/
           (c' = (c + 1)%Z /\
            exists row,
              rows (db w') = (rows (db w) ++ [row])%list /\
              Path row = path /\
              seq (db w') = (seq (db w) + 1)%Z))) /\
    (forall media w e w',
        NamedExec_insert env media w = (inl e, w') -> db w' = db w) /\
    (forall fs root w,
        root <> "" ->
        scan_error fs root = None ->
        exists res added,
          fst (scanDirectory unicodeLower Join env fs root w) = JSON res /\
          rows (db (snd (scanDirectory unicodeLower Join env fs root w)))
          = (rows (db w) ++ added)%list /\
          count res = Z.of_nat (length added) /\
          count res
          = (seq (db (snd (scanDirectory unicodeLower Join env fs root w)))
             - seq (db w))%Z) /\
    (let out := scanDirectory Scenario.noUnicode Scenario.plainJoin
                  (Scenario.failing [1%nat] 100) Scenario.tree "/media"
                  Scenario.fresh in
     option_map count (match fst out with
                       | JSON res => Some res
                       | HTTPError _ _ => None
                       end) = Some 2%Z /\
     map Path (rows (db (snd out))) = ["/media/b.jpg"; "/media/sub/d.png"] /\
     logs (snd out)
     = [LogScanStart "/media";
        LogInsertFailed "/media/a.mp4" StorageFailure;
        LogScanComplete 2]).
Proof.
  intros u Join env. split; [|split; [|split]].
  - intros path info c w.
    destruct (scanFn_visit u env path info c w)
      as (c' & w' & Hrun & [[Hc Hdb] | (Hc & _ & Hrow)]);
      exists c', w'; split; auto.
  - intros media w e w'. rewrite NamedExec_insert_eq.
    destruct (storage_fault env (tick w)).
    + intros [= _ <-]. reflexivity.
    + destruct (SQL.insert (current_timestamp env (tick w)) media (db w))
        as [e' | [id t']].
      * intros [= _ <-]. reflexivity.
      * discriminate.
  - intros fs root w Hr He.
    destruct (scanDirectory_result u Join env fs root w Hr)
      as (c & (added & Hrows & Hseq & Hc & _) & Hres).
    rewrite He in Hres. simpl in *.
    exists {| success := true; count := c; message := scan_message c |}, added.
    repeat split; auto; simpl; lia.
  - repeat split; reflexivity.
Qed.

Lemma count_follows_successful_inserts_witness :
  "/media" <> "" /\
  scan_error Scenario.tree "/media" = None /\
  exists res added,
    fst (scanDirectory Scenario.noUnicode Scenario.plainJoin
           (Scenario.failing [3%nat] 100) Scenario.tree "/media"
           Scenario.fresh) = JSON res /\
    rows (db (snd (scanDirectory Scenario.noUnicode Scenario.plainJoin
                     (Scenario.failing [3%nat] 100) Scenario.tree "/media"
                     Scenario.fresh)))
    = (rows (db Scenario.fresh) ++ added)%list /\
    count res = Z.of_nat (length added) /\
    count res
    = (seq (db (snd (scanDirectory Scenario.noUnicode Scenario.plainJoin
                       (Scenario.failing [3%nat] 100) Scenario.tree "/media"
                       Scenario.fresh)))
       - seq (db Scenario.fresh))%Z.
Proof.
  assert (Hr : "/media" <> "") by discriminate.
  split; [exact Hr|]. split; [reflexivity|].
  exact (proj1 (proj2 (proj2
           (count_follows_successful_inserts Scenario.noUnicode
              Scenario.plainJoin (Scenario.failing [3%nat] 100))))
           Scenario.tree "/media" Scenario.fresh Hr eq_refl).
Defined.




(** C7, as the specification states it, fails: it is stated for every
    reachable state, and [getStats] reports a count whose query failed as
    zero.  After a scan of the scenario tree, with the first of the three
    counts refused, the answer is a JSON body with the total 0 beside one
    video and two images. *)
Lemma failed_total_breaks_count_consistency :
  let env := Scenario.failing [6%nat] 100 in
  let w := snd (scanDirectory Scenario.noUnicode Scenario.plainJoin env
                  Scenario.tree "/media" Scenario.fresh) in
  reachable Scenario.noUnicode Scenario.plainJoin env w /\
  fst (getStats env w) = JSON {| Total := 0; Videos := 1; Images := 2 |} /\
  ~ (exists stats,
        fst (getStats env w) = JSON stats /\
        Total stats = (Videos stats + Images stats)%Z).
Proof.
  intros env w.
  split; [apply reach_scan; apply (reach_init _ _ _ 0%nat [])|].
  split; [reflexivity|].
  intros (stats & Hs & Ht).
  assert (Hrun : fst (getStats env w)
                 = JSON {| Total := 0; Videos := 1; Images := 2 |})
    by reflexivity.
  rewrite Hrun in Hs. injection Hs as <-. discriminate Ht.
Qed.

(** C7, amended.  The counts are consistent when the queries run.  In
    every state that the handlers can reach from a new database, when the
    three count queries of [getStats] meet no failure of the store (the
    query of [getMediaItems] is then the first of the three statements
    and runs too), the total that [getStats] reports is the sum of its
    counts of videos and of images, and is the number of records that
    [getMediaItems] returns without filter. *)
Theorem counts_are_consistent :
  forall (unicodeLower : string -> string)
         (Join : string -> string -> string) (env : Env) (w : World),
    reachable unicodeLower Join env w ->
    storage_fault env (tick w) = false ->
    storage_fault env (Datatypes.S (tick w)) = false ->
    storage_fault env (Datatypes.S (Datatypes.S (tick w))) = false ->
    exists stats items,
      fst (getStats env w) = JSON stats /\
      fst (getMediaItems env "" w) = JSON items /\
      Total stats = (Videos stats + Images stats)%Z /\
      Total stats = Z.of_nat (length items) /\
      Total stats = Z.of_nat (length (rows (db w))).
Proof.
  intros u Join env w Hreach H0 H1 H2.
  destruct (reachable_inv u Join env w Hreach) as [_ Hk].
  destruct (getStats_eq env w) as (Hs & _).
  destruct (getMediaItems_eq env "" w) as (Hl & _).
  rewrite H0, H1, H2 in Hs. rewrite H0 in Hl.
  eexists _, _. split; [exact Hs|]. split; [exact Hl|].
  simpl. unfold SQL.count_all, SQL.count_type, SQL.select_all.
  rewrite <- (Permutation_length (order_by_perm (rows (db w)))).
  rewrite (count_split _ Hk). repeat split; lia.
Qed.

Lemma counts_are_consistent_witness :
  let env := Scenario.failing [1%nat; 9%nat] 100 in
  let w := snd (scanDirectory Scenario.noUnicode Scenario.plainJoin env
                  Scenario.tree "/media" Scenario.fresh) in
  reachable Scenario.noUnicode Scenario.plainJoin env w /\
  storage_fault env (tick w) = false /\
  storage_fault env (Datatypes.S (tick w)) = false /\
  storage_fault env (Datatypes.S (Datatypes.S (tick w))) = false /\
  exists stats items,
    fst (getStats env w) = JSON stats /\
    fst (getMediaItems env "" w) = JSON items /\
    Total stats = (Videos stats + Images stats)%Z /\
    Total stats = Z.of_nat (length items) /\
    Total stats = Z.of_nat (length (rows (db w))).
Proof.
  intros env w.
  assert (Hreach : reachable Scenario.noUnicode Scenario.plainJoin env w)
    by (apply reach_scan; apply (reach_init _ _ _ 0%nat [])).
  split; [exact Hreach|]. split; [reflexivity|]. split; [reflexivity|].
  split; [reflexivity|].
  exact (counts_are_consistent Scenario.noUnicode Scenario.plainJoin env w
           Hreach eq_refl eq_refl eq_refl).
Defined.

(** C8.  [getMediaItems] on a store that works returns, without filter,
    every stored record, and with a filter exactly the stored records of
    that kind, in both cases newest first by [created_at].  After a scan
    of the scenario tree from a new database, the list of the videos is
    the one record of [a.mp4]. *)
Theorem list_is_newest_first :
  forall (env : Env) (w : World) (mediaType : string),
    storage_fault env (tick w) = false ->
    (exists items,
        fst (getMediaItems env mediaType w) = JSON items /\
        StronglySorted newer_or_equal items /\
        Permutation items
          (if String.eqb mediaType "" then rows (db w)
           else filter (SQL.where_type mediaType) (rows (db w)))) /\
    (forall now,
        fst (getMediaItems (Scenario.steady now) "video"
               (snd (scanDirectory Scenario.noUnicode Scenario.plainJoin
                       (Scenario.steady now) Scenario.tree "/media"
                       Scenario.fresh)))
        = JSON [ {| ID := 1; Path := "/media/a.mp4"; Filename := "a.mp4";
                    Size := 10; Type_ := "video"; CreatedAt := now |} ]).
Proof.
  intros env w ty Hf. split.
  - destruct (getMediaItems_eq env ty w) as (Hl & _). rewrite Hf in Hl.
    eexists. split; [exact Hl|].
    destruct (String.eqb ty ""); unfold SQL.select_all, SQL.select_type;
      (split; [apply order_by_sorted
              | apply Permutation_sym, order_by_perm]).
  - intros now. reflexivity.
Qed.

Lemma list_is_newest_first_witness :
  let env := Scenario.steady 100 in
  let w := snd (scanDirectory Scenario.noUnicode Scenario.plainJoin env
                  Scenario.tree "/media" Scenario.fresh) in
  storage_fault env (tick w) = false /\
  exists items,
    fst (getMediaItems env "image" w) = JSON items /\
    StronglySorted newer_or_equal items /\
    Permutation items (filter (SQL.where_type "image") (rows (db w))).
Proof.
  intros env w. split; [reflexivity|].
  exact (proj1 (list_is_newest_first env w "image" eq_refl)).
Defined.

(** C9.  The catalog is append-only.  A scan only appends rows to the
    table; [getMediaItems] and [getStats] leave the table as it is;
    [initDB] leaves an existing table as it is; the one statement that
    writes is the insert, which appends one row.  Hence, however many
    requests are handled after a record is created, the record is still
    in the catalog at its place with the same id, path, filename, size,
    kind and creation time. *)
Theorem catalog_is_append_only :
  forall (unicodeLower : string -> string)
         (Join : string -> string -> string) (env : Env) (w : World),
    (forall fs root,
        exists added,
          rows (db (snd (scanDirectory unicodeLower Join env fs root w)))
          = (rows (db w) ++ added)%list) /\
    (forall mediaType, db (snd (getMediaItems env mediaType w)) = db w) /\
    db (snd (getStats env w)) = db w /\
    (forall t, initDB (Some t) = t) /\
    (forall now media t id t',
        SQL.insert now media t = inr (id, t') ->
        exists row, rows t' = (rows t ++ [row])%list) /\
    (forall w' i r,
        later unicodeLower Join env w w' ->
        nth_error (rows (db w)) i = Some r ->
        nth_error (rows (db w')) i = Some r).
Proof.
  intros u Join env w. repeat split.
  - intros fs root.
    destruct (scanDirectory_grows u Join env fs root w)
      as (c & added & Hr & _).
    exists added. exact Hr.
  - intros ty. apply getMediaItems_eq.
  - apply getStats_eq.
  - intros now media t id t' Hins. unfold SQL.insert in Hins.
    destruct (existsb (SQL.where_path (Path media)) (rows t));
      [discriminate|].
    inversion Hins; subst. simpl. eauto.
  - intros w' i r Hlater Hnth.
    destruct (later_appends u Join env w w' Hlater) as [added ->].
    rewrite nth_error_app1; [exact Hnth|].
    apply nth_error_Some. congruence.
Qed.

Lemma catalog_is_append_only_witness :
  let env := Scenario.steady 100 in
  let scan := scanDirectory Scenario.noUnicode Scenario.plainJoin env in
  let w := snd (scan Scenario.tree "/media" Scenario.fresh) in
  let w' := snd (scan Scenario.tree_with_vanished "/media"
                   (snd (getStats env w))) in
  let a := {| ID := 1; Path := "/media/a.mp4"; Filename := "a.mp4";
              Size := 10; Type_ := "video"; CreatedAt := 100 |} in
  later Scenario.noUnicode Scenario.plainJoin env w w' /\
  nth_error (rows (db w)) 0 = Some a /\
  nth_error (rows (db w')) 0 = Some a.
Proof.
  intros env scan w w' a.
  assert (Hl : later Scenario.noUnicode Scenario.plainJoin env w w')
    by (apply later_scan, later_stats, later_now).
  assert (Hn : nth_error (rows (db w)) 0 = Some a) by reflexivity.
  split; [exact Hl|]. split; [exact Hn|].
  exact (proj2 (proj2 (proj2 (proj2 (proj2
           (catalog_is_append_only Scenario.noUnicode Scenario.plainJoin
              env w))))) w' 0%nat a Hl Hn).
Defined.



(** * Further properties of the scan *)

(** ** A walk is a fold over the files it visits *)

Section WalkFold.
Variable Join : string -> string -> string.
Variable S : Type.
Variable fn : WalkFunc S.

(** The callback hands back an error it is given and leaves the state;
    it reports no error of its own; it does nothing on a directory. *)
Hypothesis fn_err : forall path info e s,
  fn path info (Some (PathError e)) s = (Some (PathError e), s).
Hypothesis fn_ok : forall path info s,
  fst (fn path (Some info) None s) = None.
Hypothesis fn_dir : forall path info s,
  IsDir info = true -> fn path (Some info) None s = (None, s).

Lemma fn_file (path : string) (info : FileInfo) (s : S) :
  fn path (Some info) None s = (None, snd (fn path (Some info) None s)).
Proof.
  pose proof (fn_ok path info s) as H.
  destruct (fn path (Some info) None s) as [r s']. simpl in *. now subst.
Qed.

Lemma range_fold (walk' : string -> node -> S -> option error * S)
    (vis : string -> node -> list (string * FileInfo))
    (path : string) (names : list (string * (oserror + node))) :
  Forall (fun entry =>
            match snd entry with
            | inl _ => True
            | inr child =>
                forall p s,
                  walk' p child s
                  = (option_map PathError (first_error child),
                     fold_left (fun s pf => snd (fn (fst pf) (Some (snd pf)) None s))
                       (vis p child) s)
            end) names ->
  forall s,
    range Join fn walk' path names s
    = (option_map PathError (first_error_in first_error names),
       fold_left (fun s pf => snd (fn (fst pf) (Some (snd pf)) None s))
         (visited_in Join vis path names) s).
Proof.
  induction 1 as [|[name st] rest Hst _ IH]; intros s; simpl.
  - reflexivity.
  - destruct st as [e | child]; simpl in Hst.
    + now rewrite fn_err.
    + rewrite Hst, fold_left_app.
      destruct (first_error child) as [e|]; simpl.
      * now rewrite orb_true_r.
      * apply IH.
Qed.

Lemma walk_fold (n : node) :
  forall path s,
    walk Join fn path n s
    = (option_map PathError (first_error n),
       fold_left (fun s pf => snd (fn (fst pf) (Some (snd pf)) None s))
         (visited Join path n) s).
Proof.
  induction n as [info e | info names IH] using node_ind;
    intros path s; rewrite walk_Node; simpl.
  - destruct (IsDir info); simpl; [apply fn_err | apply fn_file].
  - destruct (IsDir info) eqn:Hd; simpl; [|apply fn_file].
    rewrite (fn_dir path info s Hd). now apply range_fold.
Qed.

Lemma Walk_fold (fs : FileSystem) (root : string) (s : S) :
  Walk Join fn fs root s
  = (option_map PathError (scan_error fs root),
     fold_left (fun s pf => snd (fn (fst pf) (Some (snd pf)) None s))
       (visited_root Join fs root) s).
Proof.
  unfold Walk, scan_error, visited_root.
  destruct (fs root) as [e | n].
  - now rewrite fn_err.
  - rewrite walk_fold. now destruct (first_error n).
Qed.
End WalkFold.

Lemma visited_in_files (Join : string -> string -> string)
    (path : string) (names : list (string * (oserror + node))) :
  Forall (fun entry =>
            match snd entry with
            | inl _ => True
            | inr child =>
                forall p, Forall (fun pf => IsDir (snd pf) = false)
                            (visited Join p child)
            end) names ->
  Forall (fun pf => IsDir (snd pf) = false)
    (visited_in Join (visited Join) path names).
Proof.
  induction 1 as [|[name st] rest Hst _ IH]; simpl; [constructor|].
  destruct st as [e | child]; [constructor|]. simpl in Hst.
  apply Forall_app. split; [apply Hst|].
  destruct (first_error child); [constructor | exact IH].
Qed.

(** A walk hands no directory to the file branch of its callback. *)
Lemma visited_files (Join : string -> string -> string) (n : node) :
  forall path, Forall (fun pf => IsDir (snd pf) = false) (visited Join path n).
Proof.
  induction n as [info e | info names IH] using node_ind; intros path; simpl.
  - destruct (IsDir info) eqn:Hd; simpl; repeat constructor. exact Hd.
  - destruct (IsDir info) eqn:Hd; simpl.
    + now apply visited_in_files.
    + repeat constructor. exact Hd.
Qed.

Lemma visited_root_files (Join : string -> string -> string)
    (fs : FileSystem) (root : string) :
  Forall (fun pf => IsDir (snd pf) = false) (visited_root Join fs root).
Proof.
  unfold visited_root. destruct (fs root); [constructor | apply visited_files].
Qed.

Section ScanFold.
Variable unicodeLower : string -> string.
Variable Join : string -> string -> string.
Variable env : Env.

Lemma scanFn_err_state (path : string) (info : option FileInfo)
    (e : oserror) (s : Z * World) :
  scanFn unicodeLower env path info (Some (PathError e)) s
  = (Some (PathError e), s).
Proof. now destruct s. Qed.

Lemma Walk_scan_fold (fs : FileSystem) (root : string) (s : Z * World) :
  Walk Join (scanFn unicodeLower env) fs root s
  = (option_map PathError (scan_error fs root),
     fold_left (visit_file unicodeLower env) (visited_root Join fs root) s).
Proof.
  apply Walk_fold.
  - apply scanFn_err_state.
  - apply scanFn_ok.
  - intros. now apply scanFn_dir.
Qed.

(** The answer and the final state of a scan with a root path, from the
    fold over the visited files. *)
Lemma scanDirectory_fold (fs : FileSystem) (root : string) (w : World) :
  root <> "" ->
  forall c w',
    fold_left (visit_file unicodeLower env) (visited_root Join fs root)
      (0%Z, {| db := db w; tick := tick w;
               logs := (logs w ++ [LogScanStart root])%list |})
    = (c, w') ->
    scanDirectory unicodeLower Join env fs root w
    = match scan_error fs root with
      | Some e =>
          (HTTPError (ScanError (PathError e)) 500,
           {| db := db w'; tick := tick w';
              logs := (logs w' ++ [LogScanFailed (PathError e)])%list |})
      | None =>
          (JSON {| success := true; count := c; message := scan_message c |},
           {| db := db w'; tick := tick w';
              logs := (logs w' ++ [LogScanComplete c])%list |})
      end.
Proof.
  intros Hr c w' Hfold.
  rewrite (scanDirectory_unfold unicodeLower Join env fs root w Hr).
  rewrite Walk_scan_fold, Hfold.
  now destruct (scan_error fs root).
Qed.
End ScanFold.

(** ** One file, and a list of files *)

Section VisitFacts.
Variable unicodeLower : string -> string.
Variable env : Env.

(** Whatever the store does, a visit either leaves table and counter as
    they were, or appends the row of the visited file and counts it. *)
Lemma visit_file_any (path : string) (info : FileInfo) (c : Z) (w : World) :
  exists c' w',
    visit_file unicodeLower env (c, w) (path, info) = (c', w') /\
    (tick w <= tick w')%nat /\
    ((c' = c /\ db w' = db w) \/
     (exists kind,
         classify unicodeLower path = Some kind /\
         IsDir info = false /\
         has_path path (db w) = false /\
         c' = (c + 1)%Z /\
         db w' = {| rows := (rows (db w)
                             ++ [row_of (db w)
                                   (current_timestamp env (Datatypes.S (tick w)))
                                   path info kind])%list;
                    seq := seq (db w) + 1 |})).
Proof.
  unfold visit_file, scanFn. simpl fst. simpl snd.
  destruct (IsDir info) eqn:Hd;
    [eexists _, _; split; [reflexivity|]; split; [lia | now left]|].
  destruct (classify unicodeLower path) as [kind|] eqn:Hc;
    [|eexists _, _; split; [reflexivity|]; split; [lia | now left]].
  rewrite Get_count_path_eq.
  destruct (storage_fault env (tick w)); cbv beta iota zeta;
    rewrite ?count_path_has;
    destruct (has_path path (db w)) eqn:Hp; cbv beta iota;
    rewrite ?NamedExec_insert_eq; simpl tick; simpl db;
    unfold SQL.insert; simpl Path; fold (has_path path (db w));
    rewrite ?Hp;
    destruct (storage_fault env (Datatypes.S (tick w))); simpl;
    eexists _, _; (split; [reflexivity|]); simpl;
    (split; [lia|]);
    first [ left; split; reflexivity
          | right; exists kind; repeat split; reflexivity ].
Qed.

(** On a store that works, a visit is one step of insert-if-absent. *)
Lemma fold_visit_healthy (files : list (string * FileInfo)) :
  Forall (fun pf => IsDir (snd pf) = false) files ->
  forall c w,
    healthy_from env (tick w) ->
    fold_left (visit_file unicodeLower env) files (c, w)
    = ((c + Z.of_nat (length (rows (fst (index_files unicodeLower env files
                                          (db w) (tick w)))))
        - Z.of_nat (length (rows (db w))))%Z,
       {| db := fst (index_files unicodeLower env files (db w) (tick w));
          tick := snd (index_files unicodeLower env files (db w) (tick w));
          logs := logs w |}).
Proof.
  induction 1 as [|[p i] rest Hd _ IH]; intros c w Hh.
  - simpl. f_equal; [lia | now destruct w].
  - simpl fold_left. simpl in Hd.
    unfold visit_file at 2. simpl fst. simpl snd. unfold scanFn.
    rewrite Hd. simpl index_files.
    destruct (classify unicodeLower p) as [kind|]; [|now apply IH].
    rewrite Get_count_path_eq, (Hh (tick w)) by lia.
    cbv zeta. rewrite count_path_has.
    destruct (has_path p (db w)) eqn:Hp.
    + simpl snd. rewrite IH by (simpl; eapply healthy_from_le; eauto).
      reflexivity.
    + rewrite NamedExec_insert_eq. simpl tick.
      rewrite (Hh (Datatypes.S (tick w))) by lia.
      unfold SQL.insert. simpl db. simpl Path.
      fold (has_path p (db w)). rewrite Hp. simpl snd.
      rewrite IH by (simpl; eapply healthy_from_le; eauto).
      simpl. f_equal. unfold row_of. rewrite length_app. simpl. lia.
Qed.

Lemma fold_visit_any (files : list (string * FileInfo)) :
  forall c w,
  exists c' w' added,
    fold_left (visit_file unicodeLower env) files (c, w) = (c', w') /\
    rows (db w') = (rows (db w) ++ added)%list /\
    Forall (fun r =>
              exists path info,
                In (path, info) files /\
                IsDir info = false /\
                classify unicodeLower path = Some (Type_ r) /\
                Path r = path /\ Filename r = Name info /\
                Size r = Size_ info) added.
Proof.
  induction files as [|[p i] rest IH]; intros c w.
  - exists c, w, []. simpl. rewrite app_nil_r. auto.
  - simpl fold_left.
    destruct (visit_file_any p i c w) as (c1 & w1 & -> & _ & Hstep).
    destruct (IH c1 w1) as (c' & w' & added & Hf & Hrows & Hall).
    assert (Hall' : Forall (fun r =>
              exists path info,
                In (path, info) ((p, i) :: rest) /\
                IsDir info = false /\
                classify unicodeLower path = Some (Type_ r) /\
                Path r = path /\ Filename r = Name info /\
                Size r = Size_ info) added).
    { eapply Forall_impl; [|exact Hall].
      intros r (path & info & Hin & H). exists path, info.
      split; [now right | exact H]. }
    destruct Hstep as [[_ Hdb] | (kind & Hc & Hd & _ & _ & Hdb)].
    + exists c', w', added. rewrite Hdb in Hrows. auto.
    + exists c', w',
        (row_of (db w) (current_timestamp env (Datatypes.S (tick w))) p i kind
         :: added).
      split; [exact Hf|]. split.
      * rewrite Hrows, Hdb. simpl. now rewrite <- app_assoc.
      * constructor; [|exact Hall'].
        exists p, i. simpl. repeat split; auto.
Qed.

(** Files that do not classify cost no statement and change nothing. *)
Lemma fold_visit_unclassified (files : list (string * FileInfo)) :
  Forall (fun pf => classify unicodeLower (fst pf) = None) files ->
  forall s, fold_left (visit_file unicodeLower env) files s = s.
Proof.
  induction 1 as [|[p i] rest Hc _ IH]; intros [c w]; simpl; [reflexivity|].
  unfold visit_file at 2. simpl fst. simpl snd. unfold scanFn.
  simpl in Hc. rewrite Hc.
  destruct (IsDir i); apply IH.
Qed.
End VisitFacts.

(** ** Insert-if-absent on lists *)

Section IndexFacts.
Variable unicodeLower : string -> string.
Variable env : Env.

Lemma has_path_snoc (path : string) (t : Table) (r : MediaItem) (q : Z) :
  has_path path {| rows := (rows t ++ [r])%list; seq := q |}
  = has_path path t || String.eqb (Path r) path.
Proof. unfold has_path. simpl. now rewrite existsb_app_one. Qed.

Lemma index_files_keeps (files : list (string * FileInfo)) :
  forall t n path,
    has_path path t = true ->
    has_path path (fst (index_files unicodeLower env files t n)) = true.
Proof.
  induction files as [|[p i] rest IH]; intros t n path Hp; simpl; [exact Hp|].
  destruct (classify unicodeLower p); [|auto].
  destruct (has_path p t); [auto|].
  apply IH. rewrite has_path_snoc, Hp. reflexivity.
Qed.

Lemma index_files_complete (files : list (string * FileInfo)) :
  forall t n path info,
    In (path, info) files ->
    classify unicodeLower path <> None ->
    has_path path (fst (index_files unicodeLower env files t n)) = true.
Proof.
  induction files as [|[p i] rest IH]; intros t n path info Hin Hc;
    [contradiction|].
  simpl. destruct Hin as [[= -> ->] | Hin].
  - destruct (classify unicodeLower path) as [kind|]; [|congruence].
    destruct (has_path path t) eqn:Hp.
    + now apply index_files_keeps.
    + apply index_files_keeps. rewrite has_path_snoc. simpl.
      rewrite String.eqb_refl. apply orb_true_r.
  - destruct (classify unicodeLower p); [|eauto].
    destruct (has_path p t); eauto.
Qed.
End IndexFacts.

(** ** The scan as a whole *)

(** X1.  On a store that works, a scan is insert-if-absent over the files
    of the walk.  The table and the number of statements after
    [scanDirectory] are those of [index_files] on the entries visited up
    to the first error; the answer is the error of the tree if there is
    one, else the number of rows that [index_files] appends. *)
Theorem scan_is_insert_if_absent :
  forall (unicodeLower : string -> string)
         (Join : string -> string -> string) (env : Env)
         (fs : FileSystem) (root : string) (w : World),
    root <> "" ->
    healthy_from env (tick w) ->
    let out := scanDirectory unicodeLower Join env fs root w in
    let spec := index_files unicodeLower env (visited_root Join fs root)
                  (db w) (tick w) in
    let added := (Z.of_nat (length (rows (fst spec)))
                  - Z.of_nat (length (rows (db w))))%Z in
    db (snd out) = fst spec /\
    tick (snd out) = snd spec /\
    fst out
    = match scan_error fs root with
      | Some e => HTTPError (ScanError (PathError e)) 500
      | None => JSON {| success := true; count := added;
                        message := scan_message added |}
      end.
Proof.
  intros u Join env fs root w Hr Hh out spec added.
  pose proof (fold_visit_healthy u env (visited_root Join fs root)
                (visited_root_files Join fs root) 0%Z
                {| db := db w; tick := tick w;
                   logs := (logs w ++ [LogScanStart root])%list |} Hh)
    as Hfold.
  simpl db in Hfold. simpl tick in Hfold.
  subst out. rewrite (scanDirectory_fold u Join env fs root w Hr _ _ Hfold).
  destruct (scan_error fs root); simpl; auto.
Qed.

Lemma scan_is_insert_if_absent_witness :
  let env := Scenario.steady 100 in
  let out := scanDirectory Scenario.noUnicode Scenario.plainJoin env
               Scenario.tree_with_vanished "/media" Scenario.fresh in
  "/media" <> "" /\
  healthy_from env (tick Scenario.fresh) /\
  db (snd out)
  = fst (index_files Scenario.noUnicode env
           (visited_root Scenario.plainJoin Scenario.tree_with_vanished
              "/media")
           (db Scenario.fresh) (tick Scenario.fresh)) /\
  map Path (rows (db (snd out))) = ["/media/a.mp4"].
Proof.
  intros env out.
  assert (Hr : "/media" <> "") by discriminate.
  assert (Hh : healthy_from env (tick Scenario.fresh))
    by (intros m _; reflexivity).
  split; [exact Hr|]. split; [exact Hh|].
  split; [|reflexivity].
  exact (proj1 (scan_is_insert_if_absent Scenario.noUnicode
                  Scenario.plainJoin env Scenario.tree_with_vanished
                  "/media" Scenario.fresh Hr Hh)).
Defined.

(** X2.  On a store that works, no insert of a scan fails: the scan
    writes exactly two log entries, its start and its end, and no
    warning of a failed insert. *)
Theorem working_store_scan_logs_no_failure :
  forall (unicodeLower : string -> string)
         (Join : string -> string -> string) (env : Env)
         (fs : FileSystem) (root : string) (w : World),
    root <> "" ->
    healthy_from env (tick w) ->
    exists last,
      logs (snd (scanDirectory unicodeLower Join env fs root w))
      = (logs w ++ [LogScanStart root; last])%list /\
      match scan_error fs root with
      | Some e => last = LogScanFailed (PathError e)
      | None =>
          last = LogScanComplete
                   (SQL.count_all
                      (db (snd (scanDirectory unicodeLower Join env fs root w)))
                    - SQL.count_all (db w))
      end.
Proof.
  intros u Join env fs root w Hr Hh.
  pose proof (fold_visit_healthy u env (visited_root Join fs root)
                (visited_root_files Join fs root) 0%Z
                {| db := db w; tick := tick w;
                   logs := (logs w ++ [LogScanStart root])%list |} Hh)
    as Hfold.
  simpl db in Hfold. simpl tick in Hfold.
  rewrite (scanDirectory_fold u Join env fs root w Hr _ _ Hfold).
  destruct (scan_error fs root); simpl; eexists;
    (split; [now rewrite <- app_assoc|]); reflexivity.
Qed.

Lemma working_store_scan_logs_no_failure_witness :
  "/media" <> "" /\
  healthy_from (Scenario.steady 100) (tick Scenario.fresh) /\
  exists last,
    logs (snd (scanDirectory Scenario.noUnicode Scenario.plainJoin
                 (Scenario.steady 100) Scenario.tree "/media"
                 Scenario.fresh))
    = (logs Scenario.fresh ++ [LogScanStart "/media"; last])%list.
Proof.
  assert (Hr : "/media" <> "") by discriminate.
  assert (Hh : healthy_from (Scenario.steady 100) (tick Scenario.fresh))
    by (intros m _; reflexivity).
  split; [exact Hr|]. split; [exact Hh|].
  destruct (working_store_scan_logs_no_failure Scenario.noUnicode
              Scenario.plainJoin (Scenario.steady 100) Scenario.tree
              "/media" Scenario.fresh Hr Hh) as (last & Hl & _).
  exists last. exact Hl.
Defined.

(** X3.  On a store that works, a scan leaves no media file behind: every
    entry that the walk visits before its first error and whose path
    classifies has a record in the catalog when the scan ends, also when
    the scan ends with an error. *)
Theorem scan_catalogs_every_visited_media_file :
  forall (unicodeLower : string -> string)
         (Join : string -> string -> string) (env : Env)
         (fs : FileSystem) (root : string) (w : World)
         (path : string) (info : FileInfo),
    root <> "" ->
    healthy_from env (tick w) ->
    In (path, info) (visited_root Join fs root) ->
    classify unicodeLower path <> None ->
    has_path path (db (snd (scanDirectory unicodeLower Join env fs root w)))
    = true.
Proof.
  intros u Join env fs root w path info Hr Hh Hin Hc.
  pose proof (fold_visit_healthy u env (visited_root Join fs root)
                (visited_root_files Join fs root) 0%Z
                {| db := db w; tick := tick w;
                   logs := (logs w ++ [LogScanStart root])%list |} Hh)
    as Hfold.
  simpl db in Hfold. simpl tick in Hfold.
  rewrite (scanDirectory_fold u Join env fs root w Hr _ _ Hfold).
  assert (H : has_path path
                (fst (index_files u env (visited_root Join fs root)
                        (db w) (tick w))) = true)
    by (eapply index_files_complete; eauto).
  destruct (scan_error fs root); exact H.
Qed.

Lemma scan_catalogs_every_visited_media_file_witness :
  let info := {| Name := "d.png"; Size_ := 30; IsDir := false |} in
  "/media" <> "" /\
  healthy_from (Scenario.steady 100) (tick Scenario.fresh) /\
  In ("/media/sub/d.png", info)
     (visited_root Scenario.plainJoin Scenario.tree "/media") /\
  classify Scenario.noUnicode "/media/sub/d.png" <> None /\
  has_path "/media/sub/d.png"
    (db (snd (scanDirectory Scenario.noUnicode Scenario.plainJoin
                (Scenario.steady 100) Scenario.tree "/media"
                Scenario.fresh))) = true.
Proof.
  intros info.
  assert (Hr : "/media" <> "") by discriminate.
  assert (Hh : healthy_from (Scenario.steady 100) (tick Scenario.fresh))
    by (intros m _; reflexivity).
  assert (Hin : In ("/media/sub/d.png", info)
                   (visited_root Scenario.plainJoin Scenario.tree "/media"))
    by (simpl; auto).
  assert (Hc : classify Scenario.noUnicode "/media/sub/d.png" <> None)
    by discriminate.
  split; [exact Hr|]. split; [exact Hh|]. split; [exact Hin|].
  split; [exact Hc|].
  exact (scan_catalogs_every_visited_media_file Scenario.noUnicode
           Scenario.plainJoin (Scenario.steady 100) Scenario.tree "/media"
           Scenario.fresh "/media/sub/d.png" info Hr Hh Hin Hc).
Defined.

(** X4.  Whatever the store does, every record that a scan adds comes
    from an entry of the walk that is not a directory: its path is the
    walked path, its filename and size are those of the entry's
    [FileInfo], and its kind is the kind of the path's extension. *)
Theorem scanned_rows_come_from_files :
  forall (unicodeLower : string -> string)
         (Join : string -> string -> string) (env : Env)
         (fs : FileSystem) (root : string) (w : World),
    exists added,
      rows (db (snd (scanDirectory unicodeLower Join env fs root w)))
      = (rows (db w) ++ added)%list /\
      Forall (fun r =>
                exists path info,
                  In (path, info) (visited_root Join fs root) /\
                  IsDir info = false /\
                  classify unicodeLower path = Some (Type_ r) /\
                  Path r = path /\ Filename r = Name info /\
                  Size r = Size_ info) added.
Proof.
  intros u Join env fs root w.
  destruct (String.eqb_spec root "") as [-> | Hr].
  - exists []. rewrite scanDirectory_empty. simpl.
    now rewrite app_nil_r.
  - destruct (fold_visit_any u env (visited_root Join fs root) 0%Z
                {| db := db w; tick := tick w;
                   logs := (logs w ++ [LogScanStart root])%list |})
      as (c & w' & added & Hfold & Hrows & Hall).
    exists added.
    rewrite (scanDirectory_fold u Join env fs root w Hr _ _ Hfold).
    split; [|exact Hall].
    destruct (scan_error fs root); exact Hrows.
Qed.

(** X5.  A scan of a tree in which no visited file classifies sends no
    statement to the store: table and statement count are as before, and
    with a tree free of errors the answer is the count 0, even when the
    store refuses every statement. *)
Theorem scan_without_media_leaves_store_alone :
  forall (unicodeLower : string -> string)
         (Join : string -> string -> string) (env : Env)
         (fs : FileSystem) (root : string) (w : World),
    root <> "" ->
    Forall (fun pf => classify unicodeLower (fst pf) = None)
      (visited_root Join fs root) ->
    db (snd (scanDirectory unicodeLower Join env fs root w)) = db w /\
    tick (snd (scanDirectory unicodeLower Join env fs root w)) = tick w /\
    fst (scanDirectory unicodeLower Join env fs root w)
    = match scan_error fs root with
      | Some e => HTTPError (ScanError (PathError e)) 500
      | None => JSON {| success := true; count := 0;
                        message := scan_message 0 |}
      end.
Proof.
  intros u Join env fs root w Hr Hnone.
  rewrite (scanDirectory_fold u Join env fs root w Hr _ _
             (fold_visit_unclassified u env _ Hnone _)).
  destruct (scan_error fs root); simpl; auto.
Qed.

Lemma scan_without_media_leaves_store_alone_witness :
  let out := scanDirectory Scenario.noUnicode Scenario.plainJoin
               (Examples.down 100) Examples.documents "/docs"
               Scenario.fresh in
  "/docs" <> "" /\
  Forall (fun pf => classify Scenario.noUnicode (fst pf) = None)
    (visited_root Scenario.plainJoin Examples.documents "/docs") /\
  tick (snd out) = 0%nat /\
  fst out = JSON {| success := true; count := 0;
                    message := scan_message 0 |}.
Proof.
  intros out.
  assert (Hr : "/docs" <> "") by discriminate.
  assert (Hn : Forall (fun pf => classify Scenario.noUnicode (fst pf) = None)
                 (visited_root Scenario.plainJoin Examples.documents "/docs"))
    by (repeat constructor).
  split; [exact Hr|]. split; [exact Hn|].
  destruct (scan_without_media_leaves_store_alone Scenario.noUnicode
              Scenario.plainJoin (Examples.down 100) Examples.documents
              "/docs" Scenario.fresh Hr Hn) as (_ & Ht & Hres).
  split; [exact Ht | exact Hres].
Defined.

(** X6.  A root that is a regular file is scanned as that one file.  If
    its path does not classify, the answer is the count 0 and the store is
    not touched; if it classifies and has no record, on a store that
    works the answer is the count 1 and the one row appended carries the
    root path, the name and size of the file and the kind of its
    extension. *)
Theorem scan_of_a_single_file :
  forall (unicodeLower : string -> string)
         (Join : string -> string -> string) (env : Env)
         (fs : FileSystem) (root : string) (w : World)
         (info : FileInfo)
         (listing : oserror + list (string * (oserror + node))),
    root <> "" ->
    fs root = inr (Node info listing) ->
    IsDir info = false ->
    (classify unicodeLower root = None ->
     fst (scanDirectory unicodeLower Join env fs root w)
     = JSON {| success := true; count := 0; message := scan_message 0 |} /\
     db (snd (scanDirectory unicodeLower Join env fs root w)) = db w) /\
    (forall kind,
        healthy_from env (tick w) ->
        classify unicodeLower root = Some kind ->
        has_path root (db w) = false ->
        fst (scanDirectory unicodeLower Join env fs root w)
        = JSON {| success := true; count := 1; message := scan_message 1 |} /\
        rows (db (snd (scanDirectory unicodeLower Join env fs root w)))
        = (rows (db w)
           ++ [row_of (db w) (current_timestamp env (Datatypes.S (tick w)))
                 root info kind])%list).
Proof.
  intros u Join env fs root w info listing Hr Hfs Hd.
  assert (Hv : visited_root Join fs root = [(root, info)]).
  { unfold visited_root. rewrite Hfs. simpl. now rewrite Hd. }
  assert (He : scan_error fs root = None).
  { unfold scan_error. rewrite Hfs. simpl. now rewrite Hd. }
  split.
  - intros Hc.
    assert (Hn : Forall (fun pf => classify u (fst pf) = None)
                   (visited_root Join fs root))
      by (rewrite Hv; repeat constructor; exact Hc).
    rewrite (scanDirectory_fold u Join env fs root w Hr _ _
               (fold_visit_unclassified u env _ Hn _)).
    rewrite He. simpl. auto.
  - intros kind Hh Hc Hp.
    pose proof (fold_visit_healthy u env (visited_root Join fs root)
                  (visited_root_files Join fs root) 0%Z
                  {| db := db w; tick := tick w;
                     logs := (logs w ++ [LogScanStart root])%list |} Hh)
      as Hfold.
    simpl db in Hfold. simpl tick in Hfold.
    rewrite (scanDirectory_fold u Join env fs root w Hr _ _ Hfold).
    rewrite He, Hv. simpl. rewrite Hc, Hp. simpl.
    rewrite length_app. simpl.
    replace (Z.of_nat (length (rows (db w)) + 1)
             - Z.of_nat (length (rows (db w))))%Z with 1%Z by lia.
    auto.
Qed.

Lemma scan_of_a_single_file_witness :
  let info := {| Name := "clip.MP4"; Size_ := 42; IsDir := false |} in
  let out := scanDirectory Scenario.noUnicode Scenario.plainJoin
               (Scenario.steady 100) Examples.single_file
               "/media/clip.MP4" Scenario.fresh in
  "/media/clip.MP4" <> "" /\
  Examples.single_file "/media/clip.MP4" = inr (Node info (inr [])) /\
  IsDir info = false /\
  healthy_from (Scenario.steady 100) (tick Scenario.fresh) /\
  classify Scenario.noUnicode "/media/clip.MP4" = Some "video" /\
  has_path "/media/clip.MP4" (db Scenario.fresh) = false /\
  fst out = JSON {| success := true; count := 1;
                    message := scan_message 1 |} /\
  rows (db (snd out))
  = [ {| ID := 1; Path := "/media/clip.MP4"; Filename := "clip.MP4";
         Size := 42; Type_ := "video"; CreatedAt := 100 |} ].
Proof.
  intros info out.
  assert (Hr : "/media/clip.MP4" <> "") by discriminate.
  assert (Hh : healthy_from (Scenario.steady 100) (tick Scenario.fresh))
    by (intros m _; reflexivity).
  split; [exact Hr|]. split; [reflexivity|]. split; [reflexivity|].
  split; [exact Hh|]. split; [reflexivity|]. split; [reflexivity|].
  exact (proj2 (scan_of_a_single_file Scenario.noUnicode Scenario.plainJoin
                  (Scenario.steady 100) Examples.single_file
                  "/media/clip.MP4" Scenario.fresh info (inr [])
                  Hr eq_refl eq_refl)
           "video" Hh eq_refl eq_refl).
Defined.

(** ** Invariants of the reachable states *)

Lemma ids_up_to_S (n : nat) :
  ids_up_to (Datatypes.S n) = (ids_up_to n ++ [(Z.of_nat n + 1)%Z])%list.
Proof.
  unfold ids_up_to. rewrite seq_S, map_app. simpl.
  do 2 f_equal. lia.
Qed.

Lemma ids_up_to_NoDup (n : nat) : NoDup (ids_up_to n).
Proof.
  unfold ids_up_to. apply Finite.Injective_map_NoDup.
  - intros a b. apply Nat2Z.inj.
  - apply seq_NoDup.
Qed.

Lemma count_path_le_1 (path : string) (l : list MediaItem) :
  NoDup (map Path l) ->
  (length (filter (SQL.where_path path) l) <= 1)%nat.
Proof.
  induction l as [|r l IH]; simpl; intros Hnd; [lia|].
  inversion Hnd as [|x xs Hnotin Hnd']; subst.
  specialize (IH Hnd').
  unfold SQL.where_path at 1.
  destruct (String.eqb_spec (Path r) path) as [Heq | _]; [|lia].
  simpl.
  destruct (filter (SQL.where_path path) l) as [|r' l'] eqn:Hf; [simpl; lia|].
  exfalso. apply Hnotin.
  assert (Hin : In r' (filter (SQL.where_path path) l))
    by (rewrite Hf; now left).
  apply filter_In in Hin as [Hin Hr'].
  unfold SQL.where_path in Hr'. apply String.eqb_eq in Hr'.
  rewrite Heq, <- Hr'. now apply in_map.
Qed.

Lemma filter_kinds_partition (l : list MediaItem) :
  kinds_ok l ->
  Permutation (filter (SQL.where_type "video") l
               ++ filter (SQL.where_type "image") l)%list l.
Proof.
  induction 1 as [|r l Hr _ IH]; simpl; [constructor|].
  assert (Hv : SQL.where_type "video" r = String.eqb (Type_ r) "video")
    by reflexivity.
  assert (Hi : SQL.where_type "image" r = String.eqb (Type_ r) "image")
    by reflexivity.
  rewrite Hv, Hi.
  destruct Hr as [-> | ->]; simpl.
  - now apply perm_skip.
  - apply Permutation_sym, Permutation_cons_app, Permutation_sym, IH.
Qed.

Section ReachableFacts.
Variable unicodeLower : string -> string.
Variable Join : string -> string -> string.
Variable env : Env.

Lemma fold_visit_ids (files : list (string * FileInfo)) :
  forall c w,
    map ID (rows (db w)) = ids_up_to (length (rows (db w))) ->
    seq (db w) = Z.of_nat (length (rows (db w))) ->
    let w' := snd (fold_left (visit_file unicodeLower env) files (c, w)) in
    map ID (rows (db w')) = ids_up_to (length (rows (db w'))) /\
    seq (db w') = Z.of_nat (length (rows (db w'))).
Proof.
  induction files as [|[p i] rest IH]; intros c w Hids Hseq; simpl;
    [auto|].
  destruct (visit_file_any unicodeLower env p i c w)
    as (c1 & w1 & -> & _ & [[_ Hdb] | (kind & _ & _ & _ & _ & Hdb)]);
    apply IH; rewrite Hdb; auto; simpl.
  - rewrite map_app, length_app, Hids. simpl.
    rewrite Nat.add_1_r, ids_up_to_S. now rewrite Hseq.
  - rewrite length_app. simpl. lia.
Qed.

Lemma scanDirectory_db (fs : FileSystem) (root : string) (w : World) :
  root <> "" ->
  db (snd (scanDirectory unicodeLower Join env fs root w))
  = db (snd (fold_left (visit_file unicodeLower env)
               (visited_root Join fs root)
               (0%Z, {| db := db w; tick := tick w;
                        logs := (logs w ++ [LogScanStart root])%list |}))).
Proof.
  intros Hr.
  destruct (fold_left (visit_file unicodeLower env)
              (visited_root Join fs root) _) as [c w'] eqn:Hfold.
  rewrite (scanDirectory_fold unicodeLower Join env fs root w Hr _ _ Hfold).
  now destruct (scan_error fs root).
Qed.

Lemma reachable_ids (w : World) :
  reachable unicodeLower Join env w ->
  map ID (rows (db w)) = ids_up_to (length (rows (db w))) /\
  seq (db w) = Z.of_nat (length (rows (db w))).
Proof.
  induction 1 as [n l | w fs root _ [IHi IHs] | w ty _ IH | w _ IH].
  - simpl. auto.
  - destruct (String.eqb_spec root "") as [-> | Hr].
    + rewrite scanDirectory_empty. auto.
    + rewrite (scanDirectory_db fs root w Hr).
      now apply fold_visit_ids.
  - now rewrite (proj2 (getMediaItems_eq env ty w)).
  - destruct (getStats_eq env w) as (_ & Hdb & _). now rewrite Hdb.
Qed.

Lemma reachable_kinds (w : World) :
  reachable unicodeLower Join env w ->
  Forall (fun r => classify unicodeLower (Path r) = Some (Type_ r))
    (rows (db w)).
Proof.
  induction 1 as [n l | w fs root _ IH | w ty _ IH | w _ IH].
  - constructor.
  - destruct (scanDirectory_grows unicodeLower Join env fs root w)
      as (c & added & Hr & _ & _ & _ & Hf & _).
    simpl in Hr, Hf. rewrite Hr. apply Forall_app. auto.
  - now rewrite (proj2 (getMediaItems_eq env ty w)).
  - destruct (getStats_eq env w) as (_ & Hdb & _). now rewrite Hdb.
Qed.
End ReachableFacts.

(** X7.  In every reachable state the ids of the records are 1, 2, ...,
    [n] in the order of insertion, whatever inserts failed on the way:
    ids are distinct and none is skipped or used twice, and the id
    sequence of the table stands at the number of records. *)
Theorem ids_are_consecutive :
  forall (unicodeLower : string -> string)
         (Join : string -> string -> string) (env : Env) (w : World),
    reachable unicodeLower Join env w ->
    map ID (rows (db w)) = ids_up_to (length (rows (db w))) /\
    seq (db w) = Z.of_nat (length (rows (db w))) /\
    NoDup (map ID (rows (db w))).
Proof.
  intros u Join env w Hreach.
  destruct (reachable_ids u Join env w Hreach) as [Hids Hseq].
  repeat split; auto. rewrite Hids. apply ids_up_to_NoDup.
Qed.

Lemma ids_are_consecutive_witness :
  let env := Scenario.failing [1%nat] 100 in
  let w := snd (scanDirectory Scenario.noUnicode Scenario.plainJoin env
                  Scenario.tree "/media" Scenario.fresh) in
  reachable Scenario.noUnicode Scenario.plainJoin env w /\
  map ID (rows (db w)) = [1%Z; 2%Z] /\
  map ID (rows (db w)) = ids_up_to (length (rows (db w))).
Proof.
  intros env w.
  assert (Hreach : reachable Scenario.noUnicode Scenario.plainJoin env w)
    by (apply reach_scan; apply (reach_init _ _ _ 0%nat [])).
  split; [exact Hreach|]. split; [reflexivity|].
  exact (proj1 (ids_are_consecutive Scenario.noUnicode Scenario.plainJoin
                  env w Hreach)).
Defined.

(** X8.  In every reachable state, store failures included, no two
    records share a path: the count that the scan reads before an insert
    is 0 or 1. *)
Theorem reachable_paths_are_distinct :
  forall (unicodeLower : string -> string)
         (Join : string -> string -> string) (env : Env) (w : World),
    reachable unicodeLower Join env w ->
    NoDup (map Path (rows (db w))) /\
    (forall path,
        SQL.count_path path (db w) = 0%Z \/
        SQL.count_path path (db w) = 1%Z).
Proof.
  intros u Join env w Hreach.
  destruct (reachable_inv u Join env w Hreach) as [Hnd _].
  split; [exact Hnd|]. intros path.
  pose proof (count_path_le_1 path (rows (db w)) Hnd) as Hle.
  unfold SQL.count_path. lia.
Qed.

Lemma reachable_paths_are_distinct_witness :
  let env := Scenario.failing [0%nat; 2%nat] 100 in
  let scan := scanDirectory Scenario.noUnicode Scenario.plainJoin env
                Scenario.tree "/media" in
  let w := snd (scan (snd (scan Scenario.fresh))) in
  reachable Scenario.noUnicode Scenario.plainJoin env w /\
  NoDup (map Path (rows (db w))) /\
  SQL.count_path "/media/a.mp4" (db w) = 1%Z.
Proof.
  intros env scan w.
  assert (Hreach : reachable Scenario.noUnicode Scenario.plainJoin env w)
    by (do 2 apply reach_scan; apply (reach_init _ _ _ 0%nat [])).
  split; [exact Hreach|].
  split; [|reflexivity].
  exact (proj1 (reachable_paths_are_distinct Scenario.noUnicode
                  Scenario.plainJoin env w Hreach)).
Defined.

(** X9.  In every reachable state the kind stored with a record is the
    kind of the extension of its path, so the filter of [getMediaItems]
    selects by extension: with a filter the list holds exactly the records
    whose path has an extension of that kind, and a filter that is neither
    [video] nor [image], such as [Video], yields no record. *)
Theorem type_filter_selects_by_extension :
  forall (unicodeLower : string -> string)
         (Join : string -> string -> string) (env : Env) (w : World)
         (mediaType : string),
    reachable unicodeLower Join env w ->
    storage_fault env (tick w) = false ->
    mediaType <> "" ->
    exists items,
      fst (getMediaItems env mediaType w) = JSON items /\
      Permutation items
        (filter (has_kind unicodeLower mediaType) (rows (db w))) /\
      (mediaType <> "video" -> mediaType <> "image" -> items = []).
Proof.
  intros u Join env w ty Hreach Hf Hty.
  destruct (getMediaItems_eq env ty w) as (Hl & _). rewrite Hf in Hl.
  apply String.eqb_neq in Hty. rewrite Hty in Hl.
  exists (SQL.select_type ty (db w)). split; [exact Hl|].
  pose proof (reachable_kinds u Join env w Hreach) as Hk.
  assert (Hext : filter (SQL.where_type ty) (rows (db w))
                 = filter (has_kind u ty) (rows (db w))).
  { apply filter_ext_in. intros r Hin.
    rewrite Forall_forall in Hk. unfold has_kind, SQL.where_type.
    now rewrite (Hk r Hin). }
  split.
  - unfold SQL.select_type. rewrite <- Hext.
    apply Permutation_sym, order_by_perm.
  - intros Hv Hi. unfold SQL.select_type.
    assert (Hnil : filter (SQL.where_type ty) (rows (db w)) = []).
    { destruct (reachable_inv u Join env w Hreach) as [_ Hkinds].
      clear Hext Hk Hl. induction Hkinds as [|r l Hr _ IH]; simpl;
        [reflexivity|].
      unfold SQL.where_type at 1.
      destruct (String.eqb_spec (Type_ r) ty) as [Heq | _]; [|exact IH].
      destruct Hr as [Hr | Hr]; congruence. }
    now rewrite Hnil.
Qed.

Lemma type_filter_selects_by_extension_witness :
  let env := Scenario.steady 100 in
  let w := snd (scanDirectory Scenario.noUnicode Scenario.plainJoin env
                  Scenario.tree "/media" Scenario.fresh) in
  reachable Scenario.noUnicode Scenario.plainJoin env w /\
  storage_fault env (tick w) = false /\
  "Video" <> "" /\
  fst (getMediaItems env "Video" w) = JSON [].
Proof.
  intros env w.
  assert (Hreach : reachable Scenario.noUnicode Scenario.plainJoin env w)
    by (apply reach_scan; apply (reach_init _ _ _ 0%nat [])).
  assert (Hne : "Video" <> "") by discriminate.
  split; [exact Hreach|]. split; [reflexivity|]. split; [exact Hne|].
  destruct (type_filter_selects_by_extension Scenario.noUnicode
              Scenario.plainJoin env w "Video" Hreach eq_refl Hne)
    as (items & Hres & _ & Hnil).
  rewrite Hres. f_equal. apply Hnil; discriminate.
Defined.

(** X10.  In every reachable state the list of the videos and the list of
    the images together hold each record of the unfiltered list once:
    no record is missing from both filters and none is in both. *)
Theorem video_and_image_lists_partition_the_catalog :
  forall (unicodeLower : string -> string)
         (Join : string -> string -> string) (env : Env) (w : World),
    reachable unicodeLower Join env w ->
    storage_fault env (tick w) = false ->
    exists videos images all,
      fst (getMediaItems env "video" w) = JSON videos /\
      fst (getMediaItems env "image" w) = JSON images /\
      fst (getMediaItems env "" w) = JSON all /\
      Permutation (videos ++ images)%list all.
Proof.
  intros u Join env w Hreach Hf.
  destruct (getMediaItems_eq env "video" w) as (Hv & _).
  destruct (getMediaItems_eq env "image" w) as (Hi & _).
  destruct (getMediaItems_eq env "" w) as (Ha & _).
  rewrite Hf in Hv, Hi, Ha. simpl in Hv, Hi, Ha.
  eexists _, _, _. split; [exact Hv|]. split; [exact Hi|].
  split; [exact Ha|].
  destruct (reachable_inv u Join env w Hreach) as [_ Hk].
  unfold SQL.select_type, SQL.select_all.
  eapply perm_trans; [|apply order_by_perm].
  eapply perm_trans; [|apply (filter_kinds_partition _ Hk)].
  apply Permutation_app; apply Permutation_sym, order_by_perm.
Qed.

Lemma video_and_image_lists_partition_the_catalog_witness :
  let env := Scenario.steady 100 in
  let w := snd (scanDirectory Scenario.noUnicode Scenario.plainJoin env
                  Scenario.tree "/media" Scenario.fresh) in
  reachable Scenario.noUnicode Scenario.plainJoin env w /\
  storage_fault env (tick w) = false /\
  exists videos images all,
    fst (getMediaItems env "video" w) = JSON videos /\
    fst (getMediaItems env "image" w) = JSON images /\
    fst (getMediaItems env "" w) = JSON all /\
    Permutation (videos ++ images)%list all.
Proof.
  intros env w.
  assert (Hreach : reachable Scenario.noUnicode Scenario.plainJoin env w)
    by (apply reach_scan; apply (reach_init _ _ _ 0%nat [])).
  split; [exact Hreach|]. split; [reflexivity|].
  exact (video_and_image_lists_partition_the_catalog Scenario.noUnicode
           Scenario.plainJoin env w Hreach eq_refl).
Defined.

(** ** Classification and the shape of the path *)

Lemma lowerByte_keeps_marks (c : ascii) :
  IsPathSeparator (lowerByte c) = IsPathSeparator c /\
  Ascii.eqb (lowerByte c) "."%char = Ascii.eqb c "."%char.
Proof.
  destruct c as [[|] [|] [|] [|] [|] [|] [|] [|]]; split; reflexivity.
Qed.

Lemma plain_lower (s : string) :
  plain (mapBytes lowerByte s) = plain s.
Proof.
  induction s as [|c r IH]; simpl; [reflexivity|].
  destruct (lowerByte_keeps_marks c) as [-> ->]. now rewrite IH.
Qed.

Lemma plain_no_separator (s : string) :
  plain s = true -> no_separator s = true.
Proof.
  induction s as [|c r IH]; simpl; [auto|]. intros H.
  apply andb_true_iff in H as [H Hr]. apply andb_true_iff in H as [H1 _].
  rewrite H1. simpl. auto.
Qed.

Lemma get_no_separator (s : string) (k : nat) (c : ascii) :
  no_separator s = true -> String.get k s = Some c ->
  IsPathSeparator c = false.
Proof.
  revert k. induction s as [|a r IH]; simpl; intros k Hp Hg; [discriminate|].
  apply andb_true_iff in Hp as [H1 Hr].
  destruct k as [|k].
  - inversion Hg; subst. now apply negb_true_iff.
  - eauto.
Qed.

Lemma string_append_assoc (a b c : string) :
  (a ++ b) ++ c = a ++ b ++ c.
Proof. induction a as [|x a IH]; simpl; [reflexivity | now rewrite IH]. Qed.

Lemma substring_skip (pre s : string) (k m : nat) :
  substring (String.length pre + k) m (pre ++ s) = substring k m s.
Proof. induction pre as [|c r IH]; simpl; [reflexivity | exact IH]. Qed.

Lemma Ext_loop_last (dir name : string) (k : nat) :
  no_separator name = true -> (k <= String.length name)%nat ->
  Ext_loop (dir ++ "/" ++ name) (Datatypes.S (String.length dir + k))
  = Ext_loop name k.
Proof.
  intros Hn. induction k as [|k IH]; intros Hk; rewrite Ext_loop_S.
  - rewrite get_append_at. reflexivity.
  - rewrite get_append_at. simpl String.get. rewrite Ext_loop_S.
    destruct (get_some_lt name k) as [c Hc]; [lia|].
    rewrite Hc, (get_no_separator name k c Hn Hc).
    destruct (Ascii.eqb c "."%char).
    + rewrite substring_skip, length_append. simpl.
      f_equal. lia.
    + replace (String.length dir + Datatypes.S k)%nat
        with (Datatypes.S (String.length dir + k)) by lia.
      apply IH. lia.
Qed.

Lemma Ext_last (dir name : string) :
  no_separator name = true -> Ext (dir ++ "/" ++ name) = Ext name.
Proof.
  intros Hn. unfold Ext.
  replace (String.length (dir ++ "/" ++ name))
    with (Datatypes.S (String.length dir + String.length name))
    by (rewrite length_append; simpl; lia).
  now apply Ext_loop_last.
Qed.

Lemma Ext_loop_plain (name : string) (k : nat) :
  plain name = true -> (k <= String.length name)%nat ->
  Ext_loop name k = "".
Proof.
  intros Hp. induction k as [|k IH]; intros Hk; [reflexivity|].
  rewrite Ext_loop_S.
  destruct (get_some_lt name k) as [c Hc]; [lia|].
  rewrite Hc. destruct (get_plain name k c Hp Hc) as [-> ->].
  apply IH. lia.
Qed.

Lemma classify_variant (u : string -> string) (stem x suf kind : string) :
  plain suf = true ->
  supportedExtensions ("." ++ suf) = Some kind ->
  isASCII x = true ->
  mapBytes lowerByte x = "." ++ suf ->
  classify u (stem ++ x) = Some kind.
Proof.
  intros Hp Hs Ha Hl. destruct x as [|c x']; [discriminate|].
  simpl in Hl. injection Hl as Hc Hx.
  assert (c = "."%char) as ->.
  { destruct (lowerByte_keeps_marks c) as [_ He].
    rewrite Hc in He. simpl in He. symmetry in He.
    now apply Ascii.eqb_eq in He. }
  assert (Hpx : plain x' = true) by (now rewrite <- plain_lower, Hx).
  unfold classify.
  change (stem ++ String "." x') with (stem ++ "." ++ x').
  rewrite (Ext_suffix stem x' Hpx).
  change ("." ++ x') with (String "."%char x').
  rewrite (ToLower_ascii u _ Ha). simpl mapBytes.
  change (lowerByte "."%char) with "."%char. rewrite Hx. exact Hs.
Qed.

(** X12.  Classification looks at the last element of the path only: the
    directories above a file, whatever dots they hold, do not change its
    kind. *)
Theorem classification_ignores_directories :
  forall (unicodeLower : string -> string) (dir name : string),
    no_separator name = true ->
    Ext (dir ++ "/" ++ name) = Ext name /\
    classify unicodeLower (dir ++ "/" ++ name)
    = classify unicodeLower name.
Proof.
  intros u dir name Hn. unfold classify.
  rewrite (Ext_last dir name Hn). auto.
Qed.

Lemma classification_ignores_directories_witness :
  no_separator "readme" = true /\
  Ext ("/media/clips.mp4" ++ "/" ++ "readme") = Ext "readme" /\
  classify Scenario.noUnicode ("/media/clips.mp4" ++ "/" ++ "readme") = None.
Proof.
  assert (Hn : no_separator "readme" = true) by reflexivity.
  destruct (classification_ignores_directories Scenario.noUnicode
              "/media/clips.mp4" "readme" Hn) as [He Hc].
  split; [exact Hn|]. split; [exact He|].
  rewrite Hc. reflexivity.
Defined.

(** X13.  A file without extension is never classified: a name without a
    dot has the empty extension, also below directories that have dots in
    their names, and a name that ends in a dot has the extension [.];
    neither is in the table. *)
Theorem no_extension_is_never_classified :
  forall (unicodeLower : string -> string) (dir name : string),
    plain name = true ->
    Ext (dir ++ "/" ++ name) = "" /\
    classify unicodeLower (dir ++ "/" ++ name) = None /\
    classify unicodeLower name = None /\
    classify unicodeLower (dir ++ "/" ++ name ++ ".") = None.
Proof.
  intros u dir name Hp.
  assert (He : Ext name = "")
    by (unfold Ext; apply Ext_loop_plain; [exact Hp | lia]).
  assert (Hl : Ext (dir ++ "/" ++ name) = "")
    by (rewrite (Ext_last dir name (plain_no_separator name Hp)); exact He).
  repeat split.
  - exact Hl.
  - unfold classify. now rewrite Hl.
  - unfold classify. now rewrite He.
  - unfold classify.
    replace (dir ++ "/" ++ name ++ ".") with ((dir ++ "/" ++ name) ++ "." ++ "").
    + now rewrite (Ext_suffix (dir ++ "/" ++ name) "" eq_refl).
    + now rewrite string_append_assoc.
Qed.

Lemma no_extension_is_never_classified_witness :
  plain "Makefile" = true /\
  classify Scenario.noUnicode ("/src/v1.2" ++ "/" ++ "Makefile") = None.
Proof.
  assert (Hp : plain "Makefile" = true) by reflexivity.
  split; [exact Hp|].
  exact (proj1 (proj2 (no_extension_is_never_classified Scenario.noUnicode
                         "/src/v1.2" "Makefile" Hp))).
Defined.

(** X14.  Every entry of the table can be reached: for each extension of
    the table, in any mix of upper and lower case, and for any text before
    it, the path classifies with the kind of the table.  The text before
    may be empty or end in a separator: a file named [.mp4] or [.JPG] is
    classified. *)
Theorem every_table_entry_classifies :
  forall (unicodeLower : string -> string) (key kind stem x : string),
    In (key, kind) supportedExtensions_table ->
    same_modulo_case x key ->
    classify unicodeLower (stem ++ x) = Some kind.
Proof.
  intros u key kind stem x Hin (Hax & _ & Hl).
  unfold supportedExtensions_table in Hin. simpl in Hin.
  repeat (destruct Hin as [[= <- <-] | Hin];
          [ match type of Hl with
            | _ = mapBytes lowerByte (String "." ?suf) =>
                exact (classify_variant u stem x suf _
                         eq_refl eq_refl Hax Hl)
            end | ]).
  contradiction.
Qed.

Lemma every_table_entry_classifies_witness :
  In (".mp4", "video") supportedExtensions_table /\
  same_modulo_case ".Mp4" ".mp4" /\
  classify Scenario.noUnicode ("/media/" ++ ".Mp4") = Some "video".
Proof.
  assert (Hin : In (".mp4", "video") supportedExtensions_table)
    by (left; reflexivity).
  assert (Hs : same_modulo_case ".Mp4" ".mp4")
    by (repeat split; reflexivity).
  split; [exact Hin|]. split; [exact Hs|].
  exact (every_table_entry_classifies Scenario.noUnicode ".mp4" "video"
           "/media/" ".Mp4" Hin Hs).
Defined.

(** ** Counting, repeating and partial failure *)

Section IndexCount.
Variable unicodeLower : string -> string.
Variable env : Env.

Lemma index_files_length (files : list (string * FileInfo)) :
  NoDup (map fst files) ->
  forall t n,
    length (rows (fst (index_files unicodeLower env files t n)))
    = (length (rows t) + length (filter (is_new unicodeLower t) files))%nat.
Proof.
  induction files as [|[p i] rest IH]; intros Hnd t n; simpl; [lia|].
  inversion Hnd as [|x xs Hnotin Hnd']; subst.
  unfold is_new at 1. simpl fst.
  destruct (classify unicodeLower p) as [kind|] eqn:Hc; [|now apply IH].
  destruct (has_path p t) eqn:Hp; simpl; [now apply IH|].
  rewrite (IH Hnd'). simpl rows. rewrite length_app. simpl.
  assert (Hext : filter (is_new unicodeLower
                           {| rows := (rows t
                                       ++ [row_of t
                                             (current_timestamp env (Datatypes.S n))
                                             p i kind])%list;
                              seq := seq t + 1 |}) rest
                 = filter (is_new unicodeLower t) rest).
  { apply filter_ext_in. intros [q j] Hin. unfold is_new. simpl fst.
    destruct (classify unicodeLower q); [|reflexivity].
    rewrite has_path_snoc. simpl Path.
    destruct (String.eqb_spec p q) as [-> | _].
    - exfalso. apply Hnotin. apply in_map_iff. now exists (q, j).
    - now rewrite orb_false_r. }
  rewrite Hext. lia.
Qed.

Lemma index_files_settled (files : list (string * FileInfo)) :
  forall t n,
    (forall path info,
        In (path, info) files ->
        classify unicodeLower path <> None ->
        has_path path t = true) ->
    fst (index_files unicodeLower env files t n) = t.
Proof.
  induction files as [|[p i] rest IH]; intros t n Hall; simpl; [reflexivity|].
  destruct (classify unicodeLower p) as [kind|] eqn:Hc.
  - rewrite (Hall p i) by (simpl; auto; congruence).
    apply IH. intros path info Hin. apply (Hall path info). now right.
  - apply IH. intros path info Hin. apply (Hall path info). now right.
Qed.
End IndexCount.

Lemma scanDirectory_healthy (unicodeLower : string -> string)
    (Join : string -> string -> string) (env : Env)
    (fs : FileSystem) (root : string) (w : World) :
  root <> "" ->
  healthy_from env (tick w) ->
  db (snd (scanDirectory unicodeLower Join env fs root w))
  = fst (index_files unicodeLower env (visited_root Join fs root)
           (db w) (tick w)) /\
  fst (scanDirectory unicodeLower Join env fs root w)
  = match scan_error fs root with
    | Some e => HTTPError (ScanError (PathError e)) 500
    | None =>
        JSON {| success := true;
                count := Z.of_nat
                           (length (rows (fst (index_files unicodeLower env
                                                 (visited_root Join fs root)
                                                 (db w) (tick w)))))
                         - Z.of_nat (length (rows (db w)));
                message := scan_message
                             (Z.of_nat
                                (length (rows (fst (index_files unicodeLower env
                                                      (visited_root Join fs root)
                                                      (db w) (tick w)))))
                              - Z.of_nat (length (rows (db w)))) |}
    end.
Proof.
  intros Hr Hh.
  pose proof (fold_visit_healthy unicodeLower env (visited_root Join fs root)
                (visited_root_files Join fs root) 0%Z
                {| db := db w; tick := tick w;
                   logs := (logs w ++ [LogScanStart root])%list |} Hh)
    as Hfold.
  simpl db in Hfold. simpl tick in Hfold.
  rewrite (scanDirectory_fold unicodeLower Join env fs root w Hr _ _ Hfold).
  destruct (scan_error fs root); simpl; auto.
Qed.

(** X15.  On a store that works, a scan of a tree without error in which
    no path is visited twice answers with the number of visited files
    whose path classifies and has no record yet; on an empty catalog that
    is the number of media files of the tree. *)
Theorem scan_counts_new_media_files :
  forall (unicodeLower : string -> string)
         (Join : string -> string -> string) (env : Env)
         (fs : FileSystem) (root : string) (w : World),
    root <> "" ->
    healthy_from env (tick w) ->
    scan_error fs root = None ->
    NoDup (map fst (visited_root Join fs root)) ->
    exists res,
      fst (scanDirectory unicodeLower Join env fs root w) = JSON res /\
      count res
      = Z.of_nat (length (filter (is_new unicodeLower (db w))
                            (visited_root Join fs root))).
Proof.
  intros u Join env fs root w Hr Hh He Hnd.
  destruct (scanDirectory_healthy u Join env fs root w Hr Hh) as [_ Hres].
  rewrite He in Hres. eexists. split; [exact Hres|]. simpl.
  rewrite (index_files_length u env _ Hnd). lia.
Qed.

Lemma scan_counts_new_media_files_witness :
  let env := Scenario.steady 100 in
  "/media" <> "" /\
  healthy_from env (tick Scenario.fresh) /\
  scan_error Scenario.tree "/media" = None /\
  NoDup (map fst (visited_root Scenario.plainJoin Scenario.tree "/media")) /\
  length (filter (is_new Scenario.noUnicode (db Scenario.fresh))
            (visited_root Scenario.plainJoin Scenario.tree "/media")) = 3%nat /\
  exists res,
    fst (scanDirectory Scenario.noUnicode Scenario.plainJoin env
           Scenario.tree "/media" Scenario.fresh) = JSON res /\
    count res
    = Z.of_nat (length (filter (is_new Scenario.noUnicode (db Scenario.fresh))
                          (visited_root Scenario.plainJoin Scenario.tree
                             "/media"))).
Proof.
  intros env.
  assert (Hr : "/media" <> "") by discriminate.
  assert (Hh : healthy_from env (tick Scenario.fresh))
    by (intros m _; reflexivity).
  assert (Hnd : NoDup (map fst (visited_root Scenario.plainJoin
                                  Scenario.tree "/media"))).
  { simpl. repeat constructor; simpl; intuition discriminate. }
  split; [exact Hr|]. split; [exact Hh|]. split; [reflexivity|].
  split; [exact Hnd|]. split; [reflexivity|].
  exact (scan_counts_new_media_files Scenario.noUnicode Scenario.plainJoin
           env Scenario.tree "/media" Scenario.fresh Hr Hh eq_refl Hnd).
Defined.

(** X16.  On a store that works, scanning again adds nothing, also after
    a scan that ended with an error: a second scan of the same tree leaves
    the table as the first one left it, and answers with the same error,
    or with the count 0 if the tree has none. *)
Theorem rescan_adds_nothing_even_after_error :
  forall (unicodeLower : string -> string)
         (Join : string -> string -> string) (env : Env)
         (fs : FileSystem) (root : string) (w : World),
    root <> "" ->
    healthy_from env (tick w) ->
    let w1 := snd (scanDirectory unicodeLower Join env fs root w) in
    db (snd (scanDirectory unicodeLower Join env fs root w1)) = db w1 /\
    fst (scanDirectory unicodeLower Join env fs root w1)
    = match scan_error fs root with
      | Some e => HTTPError (ScanError (PathError e)) 500
      | None => JSON {| success := true; count := 0;
                        message := scan_message 0 |}
      end.
Proof.
  intros u Join env fs root w Hr Hh w1.
  destruct (scanDirectory_healthy u Join env fs root w Hr Hh) as [Hdb1 _].
  fold w1 in Hdb1.
  assert (Hh1 : healthy_from env (tick w1)).
  { destruct (scanDirectory_grows u Join env fs root w)
      as (c & added & _ & _ & _ & Ht & _).
    simpl in Ht. eapply healthy_from_le; eauto. }
  destruct (scanDirectory_healthy u Join env fs root w1 Hr Hh1)
    as [Hdb2 Hres2].
  assert (Hset : fst (index_files u env (visited_root Join fs root)
                        (db w1) (tick w1)) = db w1).
  { apply index_files_settled. intros path info Hin Hc.
    rewrite Hdb1. eapply index_files_complete; eauto. }
  rewrite Hset in Hdb2, Hres2. split; [exact Hdb2|].
  rewrite Hres2. destruct (scan_error fs root); [reflexivity|].
  now rewrite Z.sub_diag.
Qed.

Lemma rescan_adds_nothing_even_after_error_witness :
  let env := Scenario.steady 100 in
  let scan := scanDirectory Scenario.noUnicode Scenario.plainJoin env
                Scenario.tree_with_vanished "/media" in
  "/media" <> "" /\
  healthy_from env (tick Scenario.fresh) /\
  map Path (rows (db (snd (scan Scenario.fresh)))) = ["/media/a.mp4"] /\
  db (snd (scan (snd (scan Scenario.fresh)))) = db (snd (scan Scenario.fresh)) /\
  fst (scan (snd (scan Scenario.fresh)))
  = HTTPError (ScanError (PathError ErrNotExist)) 500.
Proof.
  intros env scan.
  assert (Hr : "/media" <> "") by discriminate.
  assert (Hh : healthy_from env (tick Scenario.fresh))
    by (intros m _; reflexivity).
  split; [exact Hr|]. split; [exact Hh|]. split; [reflexivity|].
  exact (rescan_adds_nothing_even_after_error Scenario.noUnicode
           Scenario.plainJoin env Scenario.tree_with_vanished "/media"
           Scenario.fresh Hr Hh).
Defined.

(** X17.  When only the first of the three counts of [getStats] fails, the
    answer is still a JSON body, with the total 0 beside the true counts
    of videos and images: in a reachable state with at least one record
    the total is then not the sum of the two counts. *)
Theorem partial_stats_failure_breaks_the_total :
  forall (unicodeLower : string -> string)
         (Join : string -> string -> string) (env : Env) (w : World),
    reachable unicodeLower Join env w ->
    rows (db w) <> [] ->
    storage_fault env (tick w) = true ->
    storage_fault env (Datatypes.S (tick w)) = false ->
    storage_fault env (Datatypes.S (Datatypes.S (tick w))) = false ->
    exists stats,
      fst (getStats env w) = JSON stats /\
      Total stats = 0%Z /\
      (Videos stats + Images stats)%Z = Z.of_nat (length (rows (db w))) /\
      Total stats <> (Videos stats + Images stats)%Z.
Proof.
  intros u Join env w Hreach Hne H0 H1 H2.
  destruct (reachable_inv u Join env w Hreach) as [_ Hk].
  destruct (getStats_eq env w) as (Hs & _).
  rewrite H0, H1, H2 in Hs.
  eexists. split; [exact Hs|]. simpl.
  unfold SQL.count_type.
  pose proof (count_split _ Hk) as Hsplit.
  assert (Hpos : (0 < length (rows (db w)))%nat)
    by (destruct (rows (db w)); [congruence | simpl; lia]).
  repeat split; lia.
Qed.

Lemma partial_stats_failure_breaks_the_total_witness :
  let env := Scenario.failing [6%nat] 100 in
  let w := snd (scanDirectory Scenario.noUnicode Scenario.plainJoin env
                  Scenario.tree "/media" Scenario.fresh) in
  reachable Scenario.noUnicode Scenario.plainJoin env w /\
  rows (db w) <> [] /\
  storage_fault env (tick w) = true /\
  storage_fault env (Datatypes.S (tick w)) = false /\
  storage_fault env (Datatypes.S (Datatypes.S (tick w))) = false /\
  fst (getStats env w) = JSON {| Total := 0; Videos := 1; Images := 2 |}.
Proof.
  intros env w.
  assert (Hreach : reachable Scenario.noUnicode Scenario.plainJoin env w)
    by (apply reach_scan; apply (reach_init _ _ _ 0%nat [])).
  assert (Hne : rows (db w) <> []) by discriminate.
  split; [exact Hreach|]. split; [exact Hne|].
  split; [reflexivity|]. split; [reflexivity|]. split; [reflexivity|].
  destruct (partial_stats_failure_breaks_the_total Scenario.noUnicode
              Scenario.plainJoin env w Hreach Hne eq_refl eq_refl eq_refl)
    as (stats & Hs & _).
  reflexivity.
Defined.

(** ** A record, once made, is the record of its path *)

Lemma NoDup_map_same {A B : Type} (f : A -> B) (l : list A) (a b : A) :
  NoDup (map f l) -> In a l -> In b l -> f a = f b -> a = b.
Proof.
  induction l as [|x l IH]; simpl; intros Hnd Ha Hb Hf; [contradiction|].
  inversion Hnd as [|y ys Hnotin Hnd']; subst.
  destruct Ha as [-> | Ha]; destruct Hb as [-> | Hb]; auto.
  - exfalso. apply Hnotin. rewrite Hf. now apply in_map.
  - exfalso. apply Hnotin. rewrite <- Hf. now apply in_map.
Qed.

Lemma later_reachable (unicodeLower : string -> string)
    (Join : string -> string -> string) (env : Env) (w w' : World) :
  reachable unicodeLower Join env w ->
  later unicodeLower Join env w w' ->
  reachable unicodeLower Join env w'.
Proof.
  intros Hreach Hlater. induction Hlater; [exact Hreach | | | ].
  - apply reach_scan; auto.
  - apply reach_list; auto.
  - apply reach_stats; auto.
Qed.

(** X18.  A record is never refreshed.  Once a reachable state holds a
    record, every later state, whatever trees were scanned in between and
    whatever size the file has by then, holds that record, and every
    record with its path in the later state is that same record, with
    the size, name, kind, id and time of the first insert. *)
Theorem record_of_a_path_is_never_refreshed :
  forall (unicodeLower : string -> string)
         (Join : string -> string -> string) (env : Env)
         (w w' : World) (r : MediaItem),
    reachable unicodeLower Join env w ->
    later unicodeLower Join env w w' ->
    In r (rows (db w)) ->
    In r (rows (db w')) /\
    (forall r', In r' (rows (db w')) -> Path r' = Path r -> r' = r).
Proof.
  intros u Join env w w' r Hreach Hlater Hin.
  destruct (later_appends u Join env w w' Hlater) as [added Hrows].
  assert (Hin' : In r (rows (db w')))
    by (rewrite Hrows; apply in_or_app; now left).
  split; [exact Hin'|].
  intros r' Hr' Hpath.
  destruct (reachable_inv u Join env w'
              (later_reachable u Join env w w' Hreach Hlater)) as [Hnd _].
  exact (NoDup_map_same Path _ r' r Hnd Hr' Hin' Hpath).
Qed.

Lemma record_of_a_path_is_never_refreshed_witness :
  let env := Scenario.steady 100 in
  let scan := scanDirectory Scenario.noUnicode Scenario.plainJoin env in
  let grown := Scenario.mount "/media" [ Scenario.file "a.mp4" 9999 ] in
  let w := snd (scan Scenario.tree "/media" Scenario.fresh) in
  let w' := snd (scan grown "/media" w) in
  let a := {| ID := 1; Path := "/media/a.mp4"; Filename := "a.mp4";
              Size := 10; Type_ := "video"; CreatedAt := 100 |} in
  reachable Scenario.noUnicode Scenario.plainJoin env w /\
  later Scenario.noUnicode Scenario.plainJoin env w w' /\
  In a (rows (db w)) /\
  In a (rows (db w')) /\
  (forall r', In r' (rows (db w')) -> Path r' = Path a -> r' = a).
Proof.
  intros env scan grown w w' a.
  assert (Hreach : reachable Scenario.noUnicode Scenario.plainJoin env w)
    by (apply reach_scan; apply (reach_init _ _ _ 0%nat [])).
  assert (Hl : later Scenario.noUnicode Scenario.plainJoin env w w')
    by (apply later_scan, later_now).
  assert (Hin : In a (rows (db w))) by (left; reflexivity).
  split; [exact Hreach|]. split; [exact Hl|]. split; [exact Hin|].
  exact (record_of_a_path_is_never_refreshed Scenario.noUnicode
           Scenario.plainJoin env w w' a Hreach Hl Hin).
Defined.

(** ** The scan that stops at an error, and what it leaves *)

Lemma visited_in_until_error (Join : string -> string -> string)
    (path : string) (pre post : list (string * (oserror + node)))
    (name : string) (e : oserror) :
  first_error_in first_error pre = None ->
  visited_in Join (visited Join) path (pre ++ (name, inl e) :: post)%list
  = visited_in Join (visited Join) path pre.
Proof.
  induction pre as [|[nm [e'|c]] pre IH]; simpl; intros H.
  - reflexivity.
  - discriminate.
  - destruct (first_error c); [discriminate|]. now rewrite IH.
Qed.

(** C2, amended.  The callback of the walk returns every error that the
    walk reports for an entry.  Hence a scan with a root path answers with
    the first error that the tree holds, be it the failed [Lstat] of a
    file that vanished after its name was read or a directory that cannot
    be read, and answers with a count only for a tree without any error.
    Nothing is undone when the scan stops: the table it leaves is the one
    the callback had written when the error came, that is after the
    visits of the files that precede the error in the walk, on top of the
    rows the catalog held; on a store that works every one of those files
    whose path classifies has its record.  For a directory whose entry
    [name] vanished, those files are the files of the entries listed
    before [name]. *)
Theorem scan_stops_at_first_error :
  forall (unicodeLower : string -> string)
         (Join : string -> string -> string) (env : Env)
         (fs : FileSystem) (root : string) (w : World),
    root <> "" ->
    (forall e,
        scan_error fs root = Some e ->
        fst (scanDirectory unicodeLower Join env fs root w)
        = HTTPError (ScanError (PathError e)) 500) /\
    (scan_error fs root = None ->
     exists res,
       fst (scanDirectory unicodeLower Join env fs root w) = JSON res) /\
    (exists added,
        rows (db (snd (scanDirectory unicodeLower Join env fs root w)))
        = (rows (db w) ++ added)%list) /\
    (forall info pre name e post,
        fs root = inr (Node info (inr (pre ++ (name, inl e) :: post)%list)) ->
        IsDir info = true ->
        first_error_in first_error pre = None ->
        scan_error fs root = Some e /\
        visited_root Join fs root
        = visited_in Join (visited Join) root pre) /\
    db (snd (scanDirectory unicodeLower Join env fs root w))
    = db (snd (fold_left (visit_file unicodeLower env)
                 (visited_root Join fs root)
                 (0%Z, {| db := db w; tick := tick w;
                          logs := (logs w ++ [LogScanStart root])%list |}))) /\
    (healthy_from env (tick w) ->
     forall path info,
       In (path, info) (visited_root Join fs root) ->
       classify unicodeLower path <> None ->
       has_path path
         (db (snd (scanDirectory unicodeLower Join env fs root w))) = true).
Proof.
  intros u Join env fs root w Hr.
  destruct (scanDirectory_result u Join env fs root w Hr)
    as (c & (added & Hrows & _) & Hres).
  split; [|split; [|split; [|split; [|split]]]].
  - intros e He. now rewrite Hres, He.
  - intros He. rewrite Hres, He. eauto.
  - exists added. exact Hrows.
  - intros info pre name e post Hfs Hd Hpre.
    unfold scan_error, visited_root. rewrite Hfs. simpl. rewrite Hd. simpl.
    split; [now apply first_error_in_app
           | now apply visited_in_until_error].
  - apply scanDirectory_db. exact Hr.
  - intros Hh path info Hin Hc.
    destruct (scanDirectory_healthy u Join env fs root w Hr Hh) as [Hdb _].
    rewrite Hdb. eapply index_files_complete; eauto.
Qed.

Lemma scan_stops_at_first_error_witness :
  let env := Scenario.steady 100 in
  let out := scanDirectory Scenario.noUnicode Scenario.plainJoin env
               Scenario.tree_with_vanished "/media" Scenario.fresh in
  let info := {| Name := "a.mp4"; Size_ := 10; IsDir := false |} in
  "/media" <> "" /\
  scan_error Scenario.tree_with_vanished "/media" = Some ErrNotExist /\
  healthy_from env (tick Scenario.fresh) /\
  In ("/media/a.mp4", info)
     (visited_root Scenario.plainJoin Scenario.tree_with_vanished "/media") /\
  classify Scenario.noUnicode "/media/a.mp4" <> None /\
  fst out = HTTPError (ScanError (PathError ErrNotExist)) 500 /\
  has_path "/media/a.mp4" (db (snd out)) = true.
Proof.
  intros env out info.
  assert (Hr : "/media" <> "") by discriminate.
  assert (He : scan_error Scenario.tree_with_vanished "/media"
               = Some ErrNotExist) by reflexivity.
  assert (Hh : healthy_from env (tick Scenario.fresh))
    by (intros m _; reflexivity).
  assert (Hin : In ("/media/a.mp4", info)
                   (visited_root Scenario.plainJoin
                      Scenario.tree_with_vanished "/media"))
    by (left; reflexivity).
  assert (Hc : classify Scenario.noUnicode "/media/a.mp4" <> None)
    by discriminate.
  destruct (scan_stops_at_first_error Scenario.noUnicode Scenario.plainJoin
              env Scenario.tree_with_vanished "/media" Scenario.fresh Hr)
    as (Herr & _ & _ & _ & _ & Hkept).
  split; [exact Hr|]. split; [exact He|]. split; [exact Hh|].
  split; [exact Hin|]. split; [exact Hc|].
  split; [exact (Herr ErrNotExist He) | exact (Hkept Hh _ _ Hin Hc)].
Defined.
